(** * CTA Transit Tracker: stop grouping, monitored-stop store, arrivals view

    A shallow embedding of the front end's state logic
    (App.tsx, StopsMap.tsx, StopsList.tsx, ArrivalsList.tsx,
    LocationSettings.tsx) and the properties of it that the specification
    states.  React state is modelled by explicit state passing: a state
    updater [prev => next] is a function on the state, a component's
    [useState] cells are a record, and what a handler sends out (a POST
    body, a callback invocation) is returned next to the new state. *)

From Stdlib Require Import ZArith QArith Sorted Ascii Lia.
From stdpp Require Import base option list strings pretty gmap.

(** ** JavaScript values used by the components *)

Module JS.

(** A JS [number]: NaN, the two infinities, or a finite value.  Every finite
    double is a rational, and [<], [<=], [>] on doubles are the order of
    those rationals, so a finite number is carried by its rational value. *)
Inductive number : Type :=
| NaN
| NegInfinity
| Finite (q : Q)
| Infinity.

Definition isNaN (x : number) : bool :=
  match x with NaN => true | _ => false end.

(** [x < y]; any comparison with NaN is false. *)
Definition lt (x y : number) : bool :=
  match x with
  | NaN => false
  | NegInfinity => match y with Finite _ | Infinity => true | _ => false end
  | Finite a =>
      match y with
      | Finite b => negb (Qle_bool b a)
      | Infinity => true
      | _ => false
      end
  | Infinity => false
  end.

(** [x <= y]. *)
Definition le (x y : number) : bool :=
  match x with
  | NaN => false
  | NegInfinity => negb (isNaN y)
  | Finite a =>
      match y with
      | Finite b => Qle_bool a b
      | Infinity => true
      | _ => false
      end
  | Infinity => match y with Infinity => true | _ => false end
  end.

(** [x > y]. *)
Definition gt (x y : number) : bool := lt y x.

Definition of_Z (z : Z) : number := Finite (inject_Z z).

(** [arr.includes(x)] on an array of integers / of strings. *)
Definition includes (arr : list Z) (x : Z) : bool := existsb (Z.eqb x) arr.

Definition includes_string (arr : list string) (x : string) : bool :=
  existsb (String.eqb x) arr.

(** [arr?.includes(x)] used as a condition: [undefined] (falsy) when the
    array is absent. *)
Definition optional_includes (arr : option (list Z)) (x : Z) : bool :=
  match arr with
  | Some a => includes a x
  | None => false
  end.

(** [s.includes(sub)] on strings. *)
Fixpoint string_includes (s sub : string) : bool :=
  String.prefix sub s
  || match s with
     | EmptyString => false
     | String _ rest => string_includes rest sub
     end.

(** Truthiness of a [string | null]. *)
Definition truthy (s : option string) : bool :=
  match s with
  | Some EmptyString | None => false
  | Some _ => true
  end.

(** Names that every object literal [{}] inherits from [Object.prototype].
    Reading one of them on an object that has no own property of that name
    yields a function (or, for [__proto__], the prototype object): a truthy
    value without a [push] method. *)
Definition Object_prototype_keys : list string :=
  [ "constructor"; "hasOwnProperty"; "isPrototypeOf"; "propertyIsEnumerable";
    "toLocaleString"; "toString"; "valueOf"; "__proto__";
    "__defineGetter__"; "__defineSetter__"; "__lookupGetter__";
    "__lookupSetter__" ]%string.

Definition inherited (key : string) : bool :=
  includes_string Object_prototype_keys key.

(** [arr.reduce(f, init)] for a callback that may throw (None). *)
Fixpoint reduce {A B : Type} (f : B -> A -> option B) (arr : list A) (init : B)
  : option B :=
  match arr with
  | [] => Some init
  | x :: rest =>
      match f init x with
      | Some acc => reduce f rest acc
      | None => None
      end
  end.

(** [String(n)] for an integer [n], as a template literal and
    [JSON.stringify] print it: the decimal digits, with a minus sign for a
    negative one.  (JS prints integers this way below 10^21.) *)
Definition numberToString (n : Z) : string := pretty n.

(** The integers that print in plain decimal. *)
Definition printsInDecimal (n : Z) : Prop := (Z.abs n < 10 ^ 21)%Z.

(** [JSON.stringify(arr)] for an array of integers. *)
Definition stringify (arr : list Z) : string :=
  ("[" ++ String.concat "," (numberToString <$> arr) ++ "]")%string.

(** Does the character occur in the string? *)
Fixpoint occurs (c : Ascii.ascii) (s : string) : bool :=
  match s with
  | EmptyString => false
  | String c' rest => Ascii.eqb c' c || occurs c rest
  end.

End JS.

(** ** The data model *)

(** [interface Stop]; [related_stop_ids?] is the optional field. *)
Record Stop : Type := mkStop {
  stop_id : Z;
  stop_name : string;
  latitude : JS.number;
  longitude : JS.number;
  routes : list string;
  distance : JS.number;
  related_stop_ids : option (list Z)
}.

(** ** StopsMap.tsx *)

Module StopsMap.

(** [s.stop_name === stop.stop_name && s.routes.some(r => stop.routes.includes(r))] *)
Definition sameNameSharedRoute (stop s : Stop) : bool :=
  String.eqb (stop_name s) (stop_name stop)
  && existsb (fun r => JS.includes_string (routes stop) r) (routes s).

Definition findRelatedStops (stop : Stop) (allStops : list Stop) : list Stop :=
  if Nat.eqb (length (routes stop)) 0 then [stop]
  else List.filter (sameNameSharedRoute stop) allStops.

(** The [related_stop_ids] that [handleStopSelect] attaches:
    [relatedStops.filter(s => s.stop_id !== stop.stop_id).map(s => s.stop_id)]. *)
Definition relatedStopIds (stop : Stop) (allStops : list Stop) : list Z :=
  map stop_id
    (List.filter (fun s => negb (stop_id s =? stop_id stop)%Z)
       (findRelatedStops stop allStops)).

(** The stop handed to [onStopSelect] when a marker of the map is chosen. *)
Definition handleStopSelect (trainStops busStops : list Stop) (stop : Stop)
  : Stop :=
  let allStops := trainStops ++ busStops in
  {| stop_id := stop_id stop;
     stop_name := stop_name stop;
     latitude := latitude stop;
     longitude := longitude stop;
     routes := routes stop;
     distance := distance stop;
     related_stop_ids := Some (relatedStopIds stop allStops) |}.

End StopsMap.

(** ** App.tsx: the monitored-stop store *)

Module App.

(** What a state updater of [setMonitoredStops] produces: the next state and
    the snapshot it POSTs to [/api/monitored-stops], if any. *)
Record update : Type := mkUpdate {
  next : list Stop;
  posted : option (list Stop)
}.

Definition isStopMonitored (prev : list Stop) (stop : Stop) : bool :=
  existsb
    (fun s =>
       (stop_id s =? stop_id stop)%Z
       || JS.optional_includes (related_stop_ids stop) (stop_id s)
       || JS.optional_includes (related_stop_ids s) (stop_id stop))
    prev.

Definition handleStopSelect (stop : Stop) (prev : list Stop) : update :=
  if negb (isStopMonitored prev stop) then
    let newStops := prev ++ [stop] in
    {| next := newStops; posted := Some newStops |}
  else {| next := prev; posted := None |}.

Definition handleStopRemove (stopId : Z) (prev : list Stop) : update :=
  let newStops := List.filter (fun s => negb (stop_id s =? stopId)%Z) prev in
  {| next := newStops; posted := Some newStops |}.

(** *** The rest of the component state *)

(** [interface StopsResponse]. *)
Record StopsResponse : Type := mkStopsResponse {
  train_stops : list Stop;
  bus_stops : list Stop
}.

Definition noStops : StopsResponse := {| train_stops := []; bus_stops := [] |}.

(** The [useState] cells of [App]. *)
Record state : Type := mkState {
  location : JS.number * JS.number;
  loading : bool;
  stops : StopsResponse;
  monitoredStops : list Stop;
  error : option string;
  tabValue : Z;
  searchRadius : JS.number
}.

Definition DEFAULT_LOCATION : JS.number * JS.number :=
  (JS.Finite (418781 # 10000), JS.Finite (-876298 # 10000)).

Definition initial : state :=
  {| location := DEFAULT_LOCATION; loading := false; stops := noStops;
     monitoredStops := []; error := None; tabValue := 0;
     searchRadius := JS.Finite (1 # 2) |}.

Definition setLocation (v : JS.number * JS.number) (s : state) : state :=
  {| location := v; loading := loading s; stops := stops s;
     monitoredStops := monitoredStops s; error := error s;
     tabValue := tabValue s; searchRadius := searchRadius s |}.

Definition setLoading (v : bool) (s : state) : state :=
  {| location := location s; loading := v; stops := stops s;
     monitoredStops := monitoredStops s; error := error s;
     tabValue := tabValue s; searchRadius := searchRadius s |}.

Definition setStops (v : StopsResponse) (s : state) : state :=
  {| location := location s; loading := loading s; stops := v;
     monitoredStops := monitoredStops s; error := error s;
     tabValue := tabValue s; searchRadius := searchRadius s |}.

Definition setMonitoredStops (v : list Stop) (s : state) : state :=
  {| location := location s; loading := loading s; stops := stops s;
     monitoredStops := v; error := error s;
     tabValue := tabValue s; searchRadius := searchRadius s |}.

Definition setError (v : option string) (s : state) : state :=
  {| location := location s; loading := loading s; stops := stops s;
     monitoredStops := monitoredStops s; error := v;
     tabValue := tabValue s; searchRadius := searchRadius s |}.

Definition setTabValue (v : Z) (s : state) : state :=
  {| location := location s; loading := loading s; stops := stops s;
     monitoredStops := monitoredStops s; error := error s;
     tabValue := v; searchRadius := searchRadius s |}.

Definition setSearchRadius (v : JS.number) (s : state) : state :=
  {| location := location s; loading := loading s; stops := stops s;
     monitoredStops := monitoredStops s; error := error s;
     tabValue := tabValue s; searchRadius := v |}.

(** How the request of [loadMonitoredStops] ends: a 2xx response with its
    parsed body, another status (nothing is done), or an exception (logged). *)
Inductive loadOutcome : Type :=
| Loaded (data : list Stop)
| LoadRefused
| LoadThrown.

Definition loadMonitoredStops (r : loadOutcome) (s : state) : state :=
  match r with
  | Loaded data =>
      setTabValue (if (0 <? length data)%nat then 0 else 1)
        (setMonitoredStops data s)
  | LoadRefused | LoadThrown => s
  end.

(** The query of a [GET /api/stops] request. *)
Record request : Type := mkRequest {
  lat : JS.number;
  lon : JS.number;
  radius : JS.number
}.

(** How the awaited part of [fetchNearbyStops] ends. *)
Inductive searchOutcome : Type :=
| Found (data : StopsResponse)
| SearchThrown (message : string).

(** [fetchNearbyStops] up to its [await]: the request goes out. *)
Definition fetchNearbyStops_begin (s : state) : state := setLoading true s.

(** [fetchNearbyStops] once the request has settled. *)
Definition fetchNearbyStops_settle (r : searchOutcome) (s : state) : state :=
  setLoading false
    (match r with
     | Found data => setError None (setStops data s)
     | SearchThrown message =>
         setStops noStops
           (setError (Some ("Error fetching stops: " ++ message)%string) s)
     end).

Definition handleLocationUpdate (lat lon radius : JS.number) (s : state)
  : state * request :=
  (fetchNearbyStops_begin (setSearchRadius radius (setLocation (lat, lon) s)),
   {| lat := lat; lon := lon; radius := radius |}).

(** [getLocation] up to the call of [getCurrentPosition];
    [supported] is the truthiness of [navigator.geolocation]. *)
Definition getLocation (supported : bool) (s : state) : state :=
  if negb supported then
    setError (Some "Geolocation is not supported by your browser") s
  else setLoading true s.

(** What [getCurrentPosition] reports back. *)
Inductive positionOutcome : Type :=
| Position (latitude longitude : JS.number)
| PositionError (message : string).

(** The two callbacks of [getCurrentPosition].  They were created by the
    render of state [clicked], whose [searchRadius] they have captured, and
    run on the state [s] of the moment. *)
Definition getLocation_callback (clicked : state) (r : positionOutcome)
  (s : state) : state * option request :=
  match r with
  | Position latitude longitude =>
      (fetchNearbyStops_begin (setLocation (latitude, longitude) s),
       Some {| lat := latitude; lon := longitude;
               radius := searchRadius clicked |})
  | PositionError message =>
      (setLoading false
         (setError (Some ("Error getting location: " ++ message)%string) s),
       None)
  end.

(** The two updaters of [setMonitoredStops] on the whole state. *)
Definition selectStop (stop : Stop) (s : state) : state :=
  setMonitoredStops (next (handleStopSelect stop (monitoredStops s))) s.

Definition removeStop (stopId : Z) (s : state) : state :=
  setMonitoredStops (next (handleStopRemove stopId (monitoredStops s))) s.

(** What happens while searching: a validated submission arrives, the
    location button is pressed, a position is reported, a search settles. *)
Inductive searchEvent : Type :=
| Submitted (lat lon radius : JS.number)
| Pressed (supported : bool)
| Positioned (clicked : state) (r : positionOutcome)
| Settled (r : searchOutcome).

Definition searchStep (s : state) (e : searchEvent) : state :=
  match e with
  | Submitted lat lon radius => fst (handleLocationUpdate lat lon radius s)
  | Pressed supported => getLocation supported s
  | Positioned clicked r => fst (getLocation_callback clicked r s)
  | Settled r => fetchNearbyStops_settle r s
  end.

Definition isFound (e : searchEvent) : bool :=
  match e with
  | Settled (Found _) => true
  | _ => false
  end.

End App.

(** ** StopsList.tsx *)

Module StopsList.

Definition isStopMonitored (monitoredStops : list Stop) (stop : Stop) : bool :=
  existsb (fun s => (stop_id s =? stop_id stop)%Z) monitoredStops.

(** The [IconButton] of a list row: its [disabled] flag, its label, and the
    stop its click hands to [onStopSelect] (the row's stop, unchanged). *)
Record button : Type := mkButton {
  disabled : bool;
  label : string;
  onClick : Stop
}.

Definition renderStopItem (monitoredStops : list Stop) (stop : Stop) : button :=
  {| disabled := isStopMonitored monitoredStops stop;
     label := if isStopMonitored monitoredStops stop then "✓" else "+";
     onClick := stop |}.

End StopsList.

(** ** ArrivalsList.tsx *)

Module ArrivalsList.

(** The URL that [fetchArrivals] requests. *)
Definition relatedStopsParam (stop : Stop) : string :=
  match related_stop_ids stop with
  | Some (id :: ids) =>
      ("&related_stop_ids=" ++ JS.stringify (id :: ids))%string
  | Some [] | None => EmptyString
  end.

Definition requestUrl (stop : Stop) : string :=
  ("http://localhost:8000/api/arrivals/"
   ++ JS.numberToString (stop_id stop) ++ relatedStopsParam stop)%string.

Record Arrival : Type := mkArrival {
  route : string;
  destination : string;
  arrival_time : string;
  minutes : Z;
  is_delayed : bool;
  route_color : option string;
  stop_id : Z
}.

(** The component's three [useState] cells. *)
Record state : Type := mkState {
  arrivals : list Arrival;
  loading : bool;
  error : option string
}.

Definition initial : state :=
  {| arrivals := []; loading := false; error := None |}.

Definition setArrivals (data : list Arrival) (s : state) : state :=
  {| arrivals := data; loading := loading s; error := error s |}.

Definition setLoading (b : bool) (s : state) : state :=
  {| arrivals := arrivals s; loading := b; error := error s |}.

Definition setError (e : option string) (s : state) : state :=
  {| arrivals := arrivals s; loading := loading s; error := e |}.

(** How the awaited part of [fetchArrivals] ends: the parsed body of a 2xx
    response, or an [Error] thrown by [fetch], by the [response.ok] test or
    by [response.json()]. *)
Inductive outcome : Type :=
| Resolved (data : list Arrival)
| Thrown (message : string).

(** [fetchArrivals] up to its first [await]. *)
Definition fetchArrivals_begin (s : state) : state :=
  setError None (setLoading true s).

(** [fetchArrivals] from the point where the awaited request settles:
    the rest of the [try] or the [catch], then the [finally]. *)
Definition fetchArrivals_settle (r : outcome) (s : state) : state :=
  setLoading false
    (match r with
     | Resolved data => setArrivals data s
     | Thrown message =>
         setError (Some ("Error fetching arrivals: " ++ message)%string) s
     end).

(** One whole poll. *)
Definition fetchArrivals (r : outcome) (s : state) : state :=
  fetchArrivals_settle r (fetchArrivals_begin s).

(** The callback of [arrivals.reduce]: None is the TypeError raised by
    [acc[key].push] when [acc[key]] is an inherited member of
    [Object.prototype] instead of an array. *)
Definition groupStep (acc : gmap string (list Arrival)) (arrival : Arrival)
  : option (gmap string (list Arrival)) :=
  let key := destination arrival in
  match acc !! key with
  | Some group => Some (<[key := group ++ [arrival]]> acc)
  | None =>
      if JS.inherited key then None
      else Some (<[key := [arrival]]> acc)
  end.

Definition arrivalsByDestination (arrivals : list Arrival)
  : option (gmap string (list Arrival)) :=
  JS.reduce groupStep arrivals ∅.

(** What the component returns. *)
Inductive view : Type :=
| Spinner
| ErrorAlert (message : string)
| ArrivalsPaper (groups : gmap string (list Arrival)).

(** The render function; None when rendering throws. *)
Definition render (s : state) : option view :=
  if loading s && Nat.eqb (length (arrivals s)) 0 then Some Spinner
  else if JS.truthy (error s) then
    Some (ErrorAlert (default EmptyString (error s)))
  else ArrivalsPaper <$> arrivalsByDestination (arrivals s).

(** The arrivals a view puts on screen. *)
Definition displayed (v : view) : list Arrival :=
  match v with
  | ArrivalsPaper groups => concat (snd <$> map_to_list groups)
  | Spinner | ErrorAlert _ => []
  end.

(** *** The refresh effect

    [fetchArrivals(); setInterval(fetchArrivals, 30000)]: the effect starts
    poll 0 when it runs and arms the interval timer in the same turn; the
    timer's k-th firing starts poll k.  Times are in milliseconds;
    [latency k] is how long the request of poll k stays pending. *)
Definition REFRESH_MS : Z := 30000.

Definition pollStartedAt (mounted : Z) (k : nat) : Z :=
  mounted + REFRESH_MS * Z.of_nat k.

Definition pollSettledAt (mounted : Z) (latency : nat -> Z) (k : nat) : Z :=
  pollStartedAt mounted k + latency k.

(** Poll [k] is outstanding at time [t]: started, not settled yet. *)
Definition outstanding (mounted : Z) (latency : nat -> Z) (k : nat) (t : Z)
  : bool :=
  (pollStartedAt mounted k <=? t)%Z && (t <? pollSettledAt mounted latency k)%Z.

(** *** Polls as events

    Requests may overlap, so the two halves of [fetchArrivals] of different
    polls can interleave. *)
Inductive event : Type :=
| Begin
| Settle (r : outcome).

Definition step (s : state) (e : event) : state :=
  match e with
  | Begin => fetchArrivals_begin s
  | Settle r => fetchArrivals_settle r s
  end.

Definition run (events : list event) (s : state) : state :=
  fold_left step events s.

(** The body of a response, if the event is one. *)
Definition resolved (e : event) : option (list Arrival) :=
  match e with
  | Settle (Resolved data) => Some data
  | _ => None
  end.

End ArrivalsList.

(** ** LocationSettings.tsx *)

Module LocationSettings.

(** What one submit does: the value left in the [error] state cell and the
    arguments of the [onLocationUpdate] call, if it is made. *)
Record submitted : Type := mkSubmitted {
  error : option string;
  onLocationUpdate : option (JS.number * JS.number * JS.number)
}.

Definition reject (message : string) : submitted :=
  {| error := Some message; onLocationUpdate := None |}.

Section HandleSubmit.

(** The host's [parseFloat]. *)
Variable parseFloat : string -> JS.number.

Definition handleSubmit (latitude longitude radius : string) : submitted :=
  let lat := parseFloat latitude in
  let lon := parseFloat longitude in
  let rad := parseFloat radius in
  if JS.isNaN lat || JS.isNaN lon || JS.isNaN rad then
    reject "Please enter valid numbers"
  else if JS.lt lat (JS.of_Z (-90)) || JS.gt lat (JS.of_Z 90) then
    reject "Latitude must be between -90 and 90"
  else if JS.lt lon (JS.of_Z (-180)) || JS.gt lon (JS.of_Z 180) then
    reject "Longitude must be between -180 and 180"
  else if JS.le rad (JS.of_Z 0) || JS.gt rad (JS.of_Z 2) then
    reject "Radius must be between 0 and 2 miles"
  else {| error := None; onLocationUpdate := Some (lat, lon, rad) |}.

End HandleSubmit.

Inductive field : Type := Latitude | Longitude | Radius.

(** The word each [TextField] looks for in the message. *)
Definition fieldKeyword (f : field) : string :=
  match f with
  | Latitude => "Latitude"
  | Longitude => "Longitude"
  | Radius => "Radius"
  end.

(** The [error] prop of a field's [TextField]:
    [!!error && error.includes(keyword)]. *)
Definition fieldError (f : field) (error : option string) : bool :=
  JS.truthy error
  && JS.string_includes (default EmptyString error) (fieldKeyword f).

End LocationSettings.

(** ** A user session on the monitored set *)

(** The three ways the user can change the monitored set. *)
Inductive action : Type :=
| MapSelect (trainStops busStops : list Stop) (stop : Stop)
| ListSelect (stop : Stop)
| Remove (stopId : Z).

Definition step (monitoredStops : list Stop) (a : action) : list Stop :=
  match a with
  | MapSelect trainStops busStops stop =>
      App.next
        (App.handleStopSelect
           (StopsMap.handleStopSelect trainStops busStops stop) monitoredStops)
  | ListSelect stop =>
      let item := StopsList.renderStopItem monitoredStops stop in
      if StopsList.disabled item then monitoredStops
      else App.next (App.handleStopSelect (StopsList.onClick item) monitoredStops)
  | Remove stopId => App.next (App.handleStopRemove stopId monitoredStops)
  end.

Definition run (acts : list action) (init : list Stop) : list Stop :=
  fold_left step acts init.

(** ** The form wired to the application *)

(** [<LocationSettings onLocationUpdate={handleLocationUpdate} />]: a submit
    of the form on application state [s]. *)
Definition submit (parseFloat : string -> JS.number)
  (latitude longitude radius : string) (s : App.state)
  : App.state * option App.request :=
  match LocationSettings.onLocationUpdate
          (LocationSettings.handleSubmit parseFloat latitude longitude radius)
  with
  | Some (lat, lon, rad) =>
      let '(s', req) := App.handleLocationUpdate lat lon rad s in
      (s', Some req)
  | None => (s, None)
  end.

(** The application states that can arise. *)
Inductive reachable : App.state -> Prop :=
| reachable_initial : reachable App.initial
| reachable_load r s :
    reachable s -> reachable (App.loadMonitoredStops r s)
| reachable_submit parseFloat latitude longitude radius s :
    reachable s ->
    reachable (fst (submit parseFloat latitude longitude radius s))
| reachable_press supported s :
    reachable s -> reachable (App.getLocation supported s)
| reachable_position clicked r s :
    reachable clicked -> reachable s ->
    reachable (fst (App.getLocation_callback clicked r s))
| reachable_settle r s :
    reachable s -> reachable (App.fetchNearbyStops_settle r s)
| reachable_select stop s :
    reachable s -> reachable (App.selectStop stop s)
| reachable_remove stopId s :
    reachable s -> reachable (App.removeStop stopId s)
| reachable_tab (newValue : Z) s :
    reachable s -> reachable (App.setTabValue newValue s).

(** ** A session that records what is saved *)

(** The update an action makes: the next set and the snapshot it posts. *)
Definition stepUpdate (monitoredStops : list Stop) (a : action) : App.update :=
  match a with
  | MapSelect trainStops busStops stop =>
      App.handleStopSelect
        (StopsMap.handleStopSelect trainStops busStops stop) monitoredStops
  | ListSelect stop =>
      let item := StopsList.renderStopItem monitoredStops stop in
      if StopsList.disabled item then
        {| App.next := monitoredStops; App.posted := None |}
      else App.handleStopSelect (StopsList.onClick item) monitoredStops
  | Remove stopId => App.handleStopRemove stopId monitoredStops
  end.

(** The monitored set and the last snapshot posted, after the actions. *)
Fixpoint session (acts : list action) (monitoredStops : list Stop)
  (saved : option (list Stop)) : list Stop * option (list Stop) :=
  match acts with
  | [] => (monitoredStops, saved)
  | a :: rest =>
      let u := stepUpdate monitoredStops a in
      session rest (App.next u)
        (match App.posted u with
         | Some snapshot => Some snapshot
         | None => saved
         end)
  end.

(** ** Relations of the specification *)

(** [i] is listed in [s.related_stop_ids]. *)
Definition lists_related (s : Stop) (i : Z) : Prop :=
  ∃ ids, related_stop_ids s = Some ids ∧ i ∈ ids.

Definition shares_route (a b : Stop) : Prop :=
  ∃ r, r ∈ routes a ∧ r ∈ routes b.

(** Two stops are in the same class: same name and a common route, or one
    lists the other's id as related. *)
Definition same_class (a b : Stop) : Prop :=
  (stop_name a = stop_name b ∧ shares_route a b)
  ∨ lists_related a (stop_id b)
  ∨ lists_related b (stop_id a).

(** What the store compares: the ids and the related ids. *)
Definition id_clash (a b : Stop) : Prop :=
  stop_id a = stop_id b
  ∨ lists_related a (stop_id b)
  ∨ lists_related b (stop_id a).

(** Some monitored entity clashes with [x] on ids or related ids. *)
Definition clashes (monitoredStops : list Stop) (x : Stop) : Prop :=
  ∃ s, s ∈ monitoredStops ∧ id_clash s x.

(** No two entries at different positions of [l] are related by [R]. *)
Definition pairwise_not {A : Type} (R : A -> A -> Prop) (l : list A) : Prop :=
  ∀ i j a b, l !! i = Some a → l !! j = Some b → i ≠ j → ¬ R a b.

Definition one_per_class (monitoredStops : list Stop) : Prop :=
  pairwise_not same_class monitoredStops.

Definition store_inv (monitoredStops : list Stop) : Prop :=
  pairwise_not id_clash monitoredStops.

(** Every selection of the session is a marker click on the map that shows
    [trainStops] and [busStops]. *)
Definition on_map (trainStops busStops : list Stop) (a : action) : Prop :=
  match a with
  | MapSelect t b stop =>
      t = trainStops ∧ b = busStops ∧ stop ∈ trainStops ++ busStops
  | ListSelect _ => False
  | Remove _ => True
  end.

(** [m] is what the map hands over for one of the stops it shows. *)
Definition from_map (trainStops busStops : list Stop) (m : Stop) : Prop :=
  ∃ u, u ∈ trainStops ++ busStops
       ∧ m = StopsMap.handleStopSelect trainStops busStops u.

(** The invariant of a session that selects on one map only. *)
Definition map_inv (trainStops busStops : list Stop) (monitoredStops : list Stop)
  : Prop :=
  one_per_class monitoredStops
  ∧ Forall (from_map trainStops busStops) monitoredStops.

(** The arrivals of [arrivals] bound for [d], in the order of [arrivals]. *)
Definition boundFor (d : string) (arrivals : list ArrivalsList.Arrival)
  : list ArrivalsList.Arrival :=
  List.filter (fun a => String.eqb (ArrivalsList.destination a) d) arrivals.

(** Ascending by [minutes]. *)
Definition ascending (arrivals : list ArrivalsList.Arrival) : Prop :=
  StronglySorted
    (fun a b => (ArrivalsList.minutes a <= ArrivalsList.minutes b)%Z) arrivals.

(** The grouping holds, under every destination, the arrivals of [seen]
    bound for it, and no empty group. *)
Definition groups_of (seen : list ArrivalsList.Arrival)
  (acc : gmap string (list ArrivalsList.Arrival)) : Prop :=
  ∀ d, acc !! d
       = match boundFor d seen with
         | [] => None
         | g => Some g
         end.

(** A number is numeric when it is not NaN; it lies within [lo, hi] when it
    is finite with a value in that closed interval; a radius is admissible
    when it is finite with a value in (0, 2]. *)
Definition numeric (x : JS.number) : Prop := x ≠ JS.NaN.

Definition within (lo hi : Z) (x : JS.number) : Prop :=
  ∃ q, x = JS.Finite q ∧ (inject_Z lo <= q)%Q ∧ (q <= inject_Z hi)%Q.

Definition admissible_radius (x : JS.number) : Prop :=
  ∃ q, x = JS.Finite q ∧ (0 < q)%Q ∧ (q <= 2)%Q.

(** The message shown for a field that is out of range. *)
Definition rangeMessage (f : LocationSettings.field) : string :=
  match f with
  | LocationSettings.Latitude => "Latitude must be between -90 and 90"
  | LocationSettings.Longitude => "Longitude must be between -180 and 180"
  | LocationSettings.Radius => "Radius must be between 0 and 2 miles"
  end.

(** ** Sample data *)

Definition downtown_lat : JS.number := JS.Finite (418781 # 10000).
Definition downtown_lon : JS.number := JS.Finite (-876298 # 10000).
Definition nearby : JS.number := JS.Finite (1 # 10).

(** The two directions of the bus stop at State/Lake, as a search returns
    them, and a train stop. *)
Definition stateLakeNorth : Stop :=
  mkStop 1001 "State/Lake" downtown_lat downtown_lon ["22"%string] nearby None.

Definition stateLakeSouth : Stop :=
  mkStop 1002 "State/Lake" downtown_lat downtown_lon ["22"%string] nearby None.

Definition clarkLake : Stop :=
  mkStop 30074 "Clark/Lake" downtown_lat downtown_lon
    ["Blue"; "Brown"]%string nearby None.

Definition howardIn (m : Z) : ArrivalsList.Arrival :=
  ArrivalsList.mkArrival "22" "Howard" "2024-01-01T12:00:00" m false None 1001.

(** An arrival whose destination text is the name of a prototype member. *)
Definition toConstructor : ArrivalsList.Arrival :=
  ArrivalsList.mkArrival "22" "constructor" "2024-01-01T12:00:00" 4 false None
    1001.

(** [parseFloat] on the texts used in the examples; any other text used
    there has no numeric prefix. *)
Definition parseFloatOn (text : string) : JS.number :=
  if String.eqb text "41.8781" then downtown_lat
  else if String.eqb text "-87.6298" then downtown_lon
  else if String.eqb text "0.5" then JS.Finite (1 # 2)
  else if String.eqb text "3" then JS.Finite 3
  else JS.NaN.

(** A search result in which a train stop and a bus stop bear the same
    stop_id: the train list holds [brownLineStop], the bus list holds
    [busStopEast] and [busStopWest]. *)
Definition brownLineStop : Stop :=
  mkStop 2 "State/Lake L" downtown_lat downtown_lon ["Brown"%string] nearby None.

Definition busStopEast : Stop :=
  mkStop 1 "State/Lake" downtown_lat downtown_lon ["22"%string] nearby None.

Definition busStopWest : Stop :=
  mkStop 2 "State/Lake" downtown_lat downtown_lon ["22"%string] nearby None.

(** ** Array helpers *)

Lemma existsb_elem_of {A : Type} (f : A -> bool) (l : list A) :
  existsb f l = true ↔ ∃ x, x ∈ l ∧ f x = true.
Proof.
  rewrite existsb_exists. split; intros (x & Hx & Hf); exists x.
  - by rewrite list_elem_of_In.
  - by rewrite <- list_elem_of_In.
Qed.

Lemma elem_of_js_filter {A : Type} (f : A -> bool) (l : list A) (x : A) :
  x ∈ List.filter f l ↔ x ∈ l ∧ f x = true.
Proof. by rewrite !list_elem_of_In, filter_In. Qed.

Lemma includes_true (arr : list Z) (x : Z) :
  JS.includes arr x = true ↔ x ∈ arr.
Proof.
  unfold JS.includes. rewrite existsb_elem_of. split.
  - intros (y & Hy & Heq). apply Z.eqb_eq in Heq. by subst.
  - intros Hx. exists x. split; [done | apply Z.eqb_refl].
Qed.

Lemma includes_string_true (arr : list string) (x : string) :
  JS.includes_string arr x = true ↔ x ∈ arr.
Proof.
  unfold JS.includes_string. rewrite existsb_elem_of. split.
  - intros (y & Hy & Heq). apply String.eqb_eq in Heq. by subst.
  - intros Hx. exists x. split; [done | apply String.eqb_refl].
Qed.

Lemma optional_includes_true (s : Stop) (i : Z) :
  JS.optional_includes (related_stop_ids s) i = true ↔ lists_related s i.
Proof.
  unfold lists_related, JS.optional_includes.
  destruct (related_stop_ids s) as [ids|].
  - rewrite includes_true. split; [eauto | by intros (? & [= <-] & ?)].
  - split; [done | by intros (? & ? & ?)].
Qed.

Lemma neqb_true (x y : Z) : negb (x =? y)%Z = true ↔ x ≠ y.
Proof. rewrite negb_true_iff. apply Z.eqb_neq. Qed.

(** ** StopGrouper *)

Lemma sameNameSharedRoute_true (stop s : Stop) :
  StopsMap.sameNameSharedRoute stop s = true
  ↔ stop_name s = stop_name stop ∧ shares_route s stop.
Proof.
  unfold StopsMap.sameNameSharedRoute, shares_route.
  rewrite andb_true_iff, String.eqb_eq, existsb_elem_of.
  by setoid_rewrite includes_string_true.
Qed.

Lemma shares_route_sym (a b : Stop) : shares_route a b → shares_route b a.
Proof. intros (r & ? & ?). by exists r. Qed.

Lemma shares_route_nonempty (a b : Stop) : shares_route a b → routes b ≠ [].
Proof. intros (r & _ & Hr) Hnil. rewrite Hnil in Hr. by apply not_elem_of_nil in Hr. Qed.

Lemma elem_of_relatedStopIds (candidate : Stop) (universe : list Stop) (i : Z) :
  i ∈ StopsMap.relatedStopIds candidate universe
  ↔ ∃ s, s ∈ universe ∧ stop_id s = i ∧ stop_id s ≠ stop_id candidate
         ∧ stop_name s = stop_name candidate ∧ shares_route s candidate.
Proof.
  unfold StopsMap.relatedStopIds, StopsMap.findRelatedStops.
  rewrite list_elem_of_fmap.
  setoid_rewrite elem_of_js_filter. setoid_rewrite neqb_true.
  destruct (routes candidate) as [|r rs] eqn:Hroutes; simpl.
  - split.
    + intros (s & -> & Hs & Hne). apply list_elem_of_singleton in Hs. by subst.
    + intros (s & _ & _ & _ & _ & Hshare).
      by apply shares_route_nonempty in Hshare.
  - setoid_rewrite elem_of_js_filter. setoid_rewrite sameNameSharedRoute_true.
    split.
    + intros (s & -> & (Hs & Hname & Hshare) & Hne). by exists s.
    + intros (s & Hs & <- & Hne & Hname & Hshare). by exists s.
Qed.

(** C5. [relate(candidate, universe)], the ids that the map attaches to a
    selected stop, is empty when the candidate serves no route; in every case
    it holds exactly the ids of the stops of the universe whose id differs
    from the candidate's, whose name equals the candidate's and which share a
    route with it. *)
Theorem relate_spec (candidate : Stop) (universe : list Stop) :
  (routes candidate = [] → StopsMap.relatedStopIds candidate universe = [])
  ∧ (∀ i, i ∈ StopsMap.relatedStopIds candidate universe
          ↔ ∃ s, s ∈ universe ∧ stop_id s = i
                 ∧ stop_id s ≠ stop_id candidate
                 ∧ stop_name s = stop_name candidate
                 ∧ shares_route s candidate).
Proof.
  split; [| apply elem_of_relatedStopIds].
  intros Hnil. unfold StopsMap.relatedStopIds, StopsMap.findRelatedStops.
  rewrite Hnil. simpl. by rewrite Z.eqb_refl.
Qed.

(** C6 (amended). Over a universe in which a stop_id identifies a stop, the
    computed relation is symmetric: if the ids related to [A] contain [B]'s,
    the ids related to [B] contain [A]'s. *)
Theorem relate_symmetric (A B : Stop) (universe : list Stop) :
  A ∈ universe → B ∈ universe →
  (∀ s t, s ∈ universe → t ∈ universe → stop_id s = stop_id t → s = t) →
  stop_id B ∈ StopsMap.relatedStopIds A universe →
  stop_id A ∈ StopsMap.relatedStopIds B universe.
Proof.
  intros HA HB Hid. rewrite !elem_of_relatedStopIds.
  intros (s & Hs & Hsid & Hne & Hname & Hshare).
  assert (s = B) as -> by by apply Hid.
  exists A. repeat split; [done | congruence | done | by apply shares_route_sym].
Qed.

Lemma relate_spec_witness :
  StopsMap.relatedStopIds
    (mkStop 7 "State/Lake" downtown_lat downtown_lon [] nearby None)
    [stateLakeNorth; stateLakeSouth] = []
  ∧ 1002%Z ∈ StopsMap.relatedStopIds stateLakeNorth
               [stateLakeNorth; stateLakeSouth].
Proof.
  split.
  - apply (relate_spec (mkStop 7 "State/Lake" downtown_lat downtown_lon []
                          nearby None)).
    reflexivity.
  - apply (relate_spec stateLakeNorth [stateLakeNorth; stateLakeSouth]).
    exists stateLakeSouth. repeat split.
    + apply list_elem_of_further, list_elem_of_here.
    + discriminate.
    + exists "22"%string. split; apply list_elem_of_here.
Defined.

Lemma NoDup_fmap_inj {A B : Type} (f : A -> B) (l : list A) (x y : A) :
  NoDup (f <$> l) → x ∈ l → y ∈ l → f x = f y → x = y.
Proof.
  induction l as [|a l IH]; intros Hnd Hx Hy Heq.
  - by apply not_elem_of_nil in Hx.
  - rewrite fmap_cons in Hnd. apply NoDup_cons in Hnd as [Hnotin Hnd].
    apply elem_of_cons in Hx as [->|Hx]; apply elem_of_cons in Hy as [->|Hy].
    + done.
    + exfalso. apply Hnotin. rewrite Heq. by apply list_elem_of_fmap_2.
    + exfalso. apply Hnotin. rewrite <- Heq. by apply list_elem_of_fmap_2.
    + by apply IH.
Qed.

Lemma relate_symmetric_witness :
  1002%Z ∈ StopsMap.relatedStopIds stateLakeNorth [stateLakeNorth; stateLakeSouth]
  ∧ 1001%Z ∈ StopsMap.relatedStopIds stateLakeSouth
               [stateLakeNorth; stateLakeSouth].
Proof.
  assert (1002%Z ∈ StopsMap.relatedStopIds stateLakeNorth
                     [stateLakeNorth; stateLakeSouth]) as Hrel
    by (vm_compute; apply list_elem_of_here).
  split; [exact Hrel |].
  apply (relate_symmetric stateLakeNorth stateLakeSouth
           [stateLakeNorth; stateLakeSouth]).
  - apply list_elem_of_here.
  - apply list_elem_of_further, list_elem_of_here.
  - intros s t Hs Ht. apply NoDup_fmap_inj with (l := [stateLakeNorth; stateLakeSouth]);
      [| done | done].
    apply (bool_decide_unpack _). vm_compute. exact I.
  - exact Hrel.
Defined.

(** C6 as stated fails when two stops of the universe bear the same
    stop_id: the ids related to the east-bound bus stop contain 2 through the
    west-bound bus stop, 2 is also the id of the train stop, and nothing is
    related to the train stop. *)
Lemma relate_symmetric_counterexample :
  busStopEast ∈ [brownLineStop] ++ [busStopEast; busStopWest]
  ∧ brownLineStop ∈ [brownLineStop] ++ [busStopEast; busStopWest]
  ∧ stop_id brownLineStop
    ∈ StopsMap.relatedStopIds busStopEast
        ([brownLineStop] ++ [busStopEast; busStopWest])
  ∧ stop_id busStopEast
    ∉ StopsMap.relatedStopIds brownLineStop
        ([brownLineStop] ++ [busStopEast; busStopWest]).
Proof.
  split; [apply list_elem_of_further, list_elem_of_here |].
  split; [apply list_elem_of_here |].
  split.
  - assert (StopsMap.relatedStopIds busStopEast
              ([brownLineStop] ++ [busStopEast; busStopWest]) = [2%Z]) as ->
      by reflexivity.
    apply list_elem_of_here.
  - assert (StopsMap.relatedStopIds brownLineStop
              ([brownLineStop] ++ [busStopEast; busStopWest]) = []) as ->
      by reflexivity.
    apply not_elem_of_nil.
Qed.

(** ** MonitoredStopStore *)

Lemma isStopMonitored_true (S : list Stop) (x : Stop) :
  App.isStopMonitored S x = true ↔ clashes S x.
Proof.
  unfold App.isStopMonitored, clashes, id_clash. rewrite existsb_elem_of.
  split; intros (s & Hs & H); exists s; (split; [done |]).
  - rewrite !orb_true_iff in H.
    rewrite Z.eqb_eq, !optional_includes_true in H. tauto.
  - rewrite !orb_true_iff.
    rewrite Z.eqb_eq, !optional_includes_true. tauto.
Qed.

Lemma isStopMonitored_false (S : list Stop) (x : Stop) :
  App.isStopMonitored S x = false ↔ ¬ clashes S x.
Proof.
  rewrite <- isStopMonitored_true. by destruct (App.isStopMonitored S x).
Qed.

Lemma isStopMonitored_self (S : list Stop) (x : Stop) :
  App.isStopMonitored (S ++ [x]) x = true.
Proof.
  apply isStopMonitored_true. exists x. split.
  - apply elem_of_app. right. apply list_elem_of_here.
  - by left.
Qed.

(** C2. [add(x)] is rejected (the set is returned unchanged and nothing is
    saved) exactly when a monitored entity has [x]'s id, or [x] lists a
    monitored id as related, or a monitored entity lists [x]'s id as related;
    otherwise [x] is appended and the new set is saved.  Adding [x] again
    right after is rejected and leaves the set as the first call made it. *)
Theorem add_spec (S : list Stop) (x : Stop) :
  (clashes S x →
   App.handleStopSelect x S = {| App.next := S; App.posted := None |})
  ∧ (¬ clashes S x →
     App.handleStopSelect x S
     = {| App.next := S ++ [x]; App.posted := Some (S ++ [x]) |})
  ∧ App.handleStopSelect x (App.next (App.handleStopSelect x S))
    = {| App.next := App.next (App.handleStopSelect x S);
         App.posted := None |}.
Proof.
  unfold App.handleStopSelect. repeat split.
  - intros H. apply isStopMonitored_true in H. by rewrite H.
  - intros H. apply isStopMonitored_false in H. by rewrite H.
  - destruct (App.isStopMonitored S x) eqn:E; simpl.
    + by rewrite E.
    + by rewrite isStopMonitored_self.
Qed.

Lemma add_spec_witness :
  App.handleStopSelect (StopsMap.handleStopSelect [] [stateLakeNorth; stateLakeSouth] stateLakeSouth)
    [stateLakeNorth]
  = {| App.next := [stateLakeNorth]; App.posted := None |}
  ∧ App.next (App.handleStopSelect clarkLake [stateLakeNorth])
    = [stateLakeNorth; clarkLake].
Proof.
  split.
  - destruct (add_spec [stateLakeNorth]
                (StopsMap.handleStopSelect [] [stateLakeNorth; stateLakeSouth]
                   stateLakeSouth)) as (Hreject & _ & _).
    apply Hreject. exists stateLakeNorth. split; [apply list_elem_of_here |].
    right. right. exists [1001%Z]. split; [reflexivity | apply list_elem_of_here].
  - destruct (add_spec [stateLakeNorth] clarkLake) as (_ & Happend & _).
    rewrite Happend; [reflexivity |].
    intros (s & Hs & Hclash). apply list_elem_of_singleton in Hs. subst s.
    destruct Hclash as [Hid | [(ids & Hids & _) | (ids & Hids & _)]];
      discriminate.
Defined.

(** C7. On a monitored set with unique stop_ids, [remove(id)] keeps exactly
    the entities whose stop_id differs from [id], in their order, whatever
    their related ids; the set shrinks by one when [id] was present and not
    at all otherwise; removing [id] a second time changes nothing. *)
Theorem remove_spec (S : list Stop) (id : Z) :
  NoDup (stop_id <$> S) →
  (∀ s, s ∈ App.next (App.handleStopRemove id S) ↔ s ∈ S ∧ stop_id s ≠ id)
  ∧ App.next (App.handleStopRemove id S) `sublist_of` S
  ∧ length (App.next (App.handleStopRemove id S))
    = (length S - (if bool_decide (id ∈ stop_id <$> S) then 1 else 0))%nat
  ∧ App.handleStopRemove id (App.next (App.handleStopRemove id S))
    = App.handleStopRemove id S.
Proof.
  intros Hnd. unfold App.handleStopRemove. simpl.
  split; [| split; [| split]].
  - intros s. rewrite elem_of_js_filter, neqb_true. done.
  - clear Hnd. induction S as [|a S IH]; simpl; [done |].
    destruct (negb _); [by apply sublist_skip | by apply sublist_cons].
  - induction S as [|a S IH]; [done |].
    rewrite fmap_cons in Hnd. apply NoDup_cons in Hnd as [Hnotin Hnd].
    specialize (IH Hnd). simpl.
    destruct (stop_id a =? id)%Z eqn:E; simpl.
    + apply Z.eqb_eq in E. subst id.
      rewrite bool_decide_eq_true_2 by apply list_elem_of_here.
      rewrite IH. rewrite bool_decide_eq_false_2 by done. lia.
    + apply Z.eqb_neq in E. rewrite IH.
      case_bool_decide as H1; case_bool_decide as H2; try lia.
      * apply list_elem_of_fmap in H1 as (s & -> & Hs).
        destruct S; [by apply not_elem_of_nil in Hs | simpl; lia].
      * exfalso. apply H2. by apply list_elem_of_further.
      * exfalso. apply H1. by apply elem_of_cons in H2 as [->|H2].
  - f_equal; clear Hnd; induction S as [|a S IH]; simpl; try done;
      destruct (negb (stop_id a =? id)%Z) eqn:E; simpl; rewrite ?E; congruence.
Qed.

Lemma remove_spec_witness :
  App.next
    (App.handleStopRemove 1001
       [StopsMap.handleStopSelect [] [stateLakeNorth; stateLakeSouth]
          stateLakeNorth; clarkLake])
  `sublist_of`
    [StopsMap.handleStopSelect [] [stateLakeNorth; stateLakeSouth]
       stateLakeNorth; clarkLake]
  ∧ length
      (App.next
         (App.handleStopRemove 1001
            [StopsMap.handleStopSelect [] [stateLakeNorth; stateLakeSouth]
               stateLakeNorth; clarkLake]))
    = 1%nat.
Proof.
  destruct (remove_spec
              [StopsMap.handleStopSelect [] [stateLakeNorth; stateLakeSouth]
                 stateLakeNorth; clarkLake] 1001)
    as (_ & Hsub & Hlen & _).
  - apply (bool_decide_unpack _). vm_compute. exact I.
  - split; [exact Hsub | rewrite Hlen; reflexivity].
Defined.

(** Removing the id of a related stop that is not itself monitored leaves
    the entity that lists it in place. *)
Example remove_does_not_cascade :
  App.next
    (App.handleStopRemove 1002
       [StopsMap.handleStopSelect [] [stateLakeNorth; stateLakeSouth]
          stateLakeNorth])
  = [StopsMap.handleStopSelect [] [stateLakeNorth; stateLakeSouth]
       stateLakeNorth].
Proof. reflexivity. Qed.

(** ** The list's indicator *)

Lemma list_isStopMonitored_true (S : list Stop) (x : Stop) :
  StopsList.isStopMonitored S x = true ↔ ∃ s, s ∈ S ∧ stop_id s = stop_id x.
Proof.
  unfold StopsList.isStopMonitored. rewrite existsb_elem_of.
  by setoid_rewrite Z.eqb_eq.
Qed.

(** C10. The list marks a stop as monitored exactly when a monitored entity
    has its stop_id.  A stop whose id no monitored entity has is therefore
    shown as selectable ([+], enabled, its click passing the stop on as it
    is), whether or not it belongs to the class of a monitored entity. *)
Theorem list_indicator_spec (S : list Stop) (x : Stop) :
  (StopsList.isStopMonitored S x = true
   ↔ ∃ s, s ∈ S ∧ stop_id s = stop_id x)
  ∧ ((∀ s, s ∈ S → stop_id s ≠ stop_id x) →
     StopsList.renderStopItem S x
     = {| StopsList.disabled := false;
          StopsList.label := "+";
          StopsList.onClick := x |}).
Proof.
  split; [apply list_isStopMonitored_true |].
  intros Hfresh. unfold StopsList.renderStopItem.
  destruct (StopsList.isStopMonitored S x) eqn:E; [| done].
  apply list_isStopMonitored_true in E as (s & Hs & Heq).
  by destruct (Hfresh s Hs).
Qed.

Lemma list_indicator_spec_witness :
  same_class
    (StopsMap.handleStopSelect [] [stateLakeNorth; stateLakeSouth] stateLakeNorth)
    stateLakeSouth
  ∧ StopsList.renderStopItem
      [StopsMap.handleStopSelect [] [stateLakeNorth; stateLakeSouth]
         stateLakeNorth]
      stateLakeSouth
    = {| StopsList.disabled := false;
         StopsList.label := "+";
         StopsList.onClick := stateLakeSouth |}.
Proof.
  split.
  - right. left. exists [1002%Z]. split; [reflexivity | apply list_elem_of_here].
  - apply (list_indicator_spec
             [StopsMap.handleStopSelect [] [stateLakeNorth; stateLakeSouth]
                stateLakeNorth]
             stateLakeSouth).
    intros s Hs. apply list_elem_of_singleton in Hs. subst s. discriminate.
Defined.

(** ** Invariants of the monitored set *)

Section Pairwise.

Context {A : Type} (R : A -> A -> Prop).

Lemma pairwise_not_nil : pairwise_not R [].
Proof. intros i j a b Hi. by rewrite lookup_nil in Hi. Qed.

Lemma pairwise_not_cons (a : A) (l : list A) :
  pairwise_not R (a :: l)
  ↔ (∀ b, b ∈ l → ¬ R a b ∧ ¬ R b a) ∧ pairwise_not R l.
Proof.
  split.
  - intros H. split.
    + intros b Hb. apply list_elem_of_lookup in Hb as [j Hj]. split.
      * by apply (H 0%nat (S j)).
      * by apply (H (S j) 0%nat).
    + intros i j x y Hi Hj Hne. apply (H (S i) (S j)); [done | done | lia].
  - intros [Hhead Htail] i j x y Hi Hj Hne.
    destruct i as [|i], j as [|j]; simpl in Hi, Hj.
    + done.
    + injection Hi as <-. apply Hhead. by eapply list_elem_of_lookup_2.
    + injection Hj as <-. apply Hhead. by eapply list_elem_of_lookup_2.
    + apply (Htail i j); [done | done | lia].
Qed.

Lemma pairwise_not_snoc (l : list A) (x : A) :
  pairwise_not R l →
  (∀ a, a ∈ l → ¬ R a x ∧ ¬ R x a) →
  pairwise_not R (l ++ [x]).
Proof.
  induction l as [|a l IH]; intros Hl Hx; simpl.
  - apply pairwise_not_cons. split; [| apply pairwise_not_nil].
    intros b Hb. by apply not_elem_of_nil in Hb.
  - apply pairwise_not_cons in Hl as [Hhead Htail].
    apply pairwise_not_cons. split.
    + intros b Hb. apply elem_of_app in Hb as [Hb | Hb].
      * by apply Hhead.
      * apply list_elem_of_singleton in Hb. subst b.
        destruct (Hx a) as [? ?]; [apply list_elem_of_here | done].
    + apply IH; [done |]. intros b Hb. apply Hx. by apply list_elem_of_further.
Qed.

Lemma pairwise_not_filter (f : A -> bool) (l : list A) :
  pairwise_not R l → pairwise_not R (List.filter f l).
Proof.
  induction l as [|a l IH]; intros Hl; simpl; [done |].
  apply pairwise_not_cons in Hl as [Hhead Htail].
  destruct (f a); [| by apply IH].
  apply pairwise_not_cons. split; [| by apply IH].
  intros b Hb. apply elem_of_js_filter in Hb as [Hb _]. by apply Hhead.
Qed.

End Pairwise.

Lemma id_clash_sym (a b : Stop) : id_clash a b → id_clash b a.
Proof. unfold id_clash. intros [H | [H | H]]; auto. Qed.

Lemma same_class_sym (a b : Stop) : same_class a b → same_class b a.
Proof.
  unfold same_class. intros [[Hname Hshare] | [H | H]]; auto.
  left. split; [done | by apply shares_route_sym].
Qed.

Lemma handleStopSelect_next (x : Stop) (S : list Stop) :
  (clashes S x ∧ App.next (App.handleStopSelect x S) = S)
  ∨ (¬ clashes S x ∧ App.next (App.handleStopSelect x S) = S ++ [x]).
Proof.
  unfold App.handleStopSelect.
  destruct (App.isStopMonitored S x) eqn:E; simpl.
  - left. by apply isStopMonitored_true in E.
  - right. by apply isStopMonitored_false in E.
Qed.

Lemma handleStopSelect_store_inv (x : Stop) (S : list Stop) :
  store_inv S → store_inv (App.next (App.handleStopSelect x S)).
Proof.
  intros HS. destruct (handleStopSelect_next x S) as [[_ ->] | [Hfree ->]];
    [done |].
  apply pairwise_not_snoc; [done |].
  intros a Ha. split; intros Hclash; apply Hfree; exists a;
    auto using id_clash_sym.
Qed.

Lemma step_store_inv (a : action) (S : list Stop) :
  store_inv S → store_inv (step S a).
Proof.
  intros HS. destruct a as [t b stop | stop | stopId]; simpl.
  - by apply handleStopSelect_store_inv.
  - destruct (StopsList.isStopMonitored S stop); [done |].
    by apply handleStopSelect_store_inv.
  - by apply pairwise_not_filter.
Qed.

Lemma run_store_inv (acts : list action) (init : list Stop) :
  store_inv init → store_inv (run acts init).
Proof.
  revert init. induction acts as [|a acts IH]; intros init Hinit; [done |].
  apply IH. by apply step_store_inv.
Qed.

(** A stop that comes from the map and is in the class of a monitored stop
    that came from the same map clashes with it on ids. *)
Lemma same_class_from_map_clash (t b : list Stop) (a m : Stop) :
  from_map t b a → from_map t b m → same_class a m → id_clash a m.
Proof.
  intros (ua & Hua & ->) (um & Hum & ->) [[Hname Hshare] | [H | H]];
    [| by right; left | by right; right].
  simpl in Hname. unfold shares_route in Hshare. simpl in Hshare.
  destruct (decide (stop_id ua = stop_id um)) as [Heq | Hne]; [by left |].
  right. right. eexists. split; [reflexivity |]. simpl.
  apply elem_of_relatedStopIds. by exists ua.
Qed.

Lemma step_map_inv (t b : list Stop) (a : action) (S : list Stop) :
  on_map t b a → map_inv t b S → map_inv t b (step S a).
Proof.
  intros Ha [Hclass Hfrom].
  destruct a as [t' b' stop | stop | stopId]; simpl in *; [| done |].
  - destruct Ha as (-> & -> & Hstop).
    set (m := StopsMap.handleStopSelect t b stop).
    assert (from_map t b m) as Hm by by exists stop.
    destruct (handleStopSelect_next m S) as [[_ ->] | [Hfree ->]]; [done |].
    split.
    + apply pairwise_not_snoc; [done |].
      intros x Hx.
      assert (from_map t b x) as Hfx
        by (rewrite Forall_forall in Hfrom; by apply Hfrom).
      assert (¬ same_class x m) as Hno.
      { intros Hsame. apply Hfree. exists x. split; [done |].
        by apply (same_class_from_map_clash t b). }
      split; [done |]. intros Hsame. by apply Hno, same_class_sym.
    + apply Forall_app. split; [done |]. by apply Forall_singleton.
  - split.
    + by apply pairwise_not_filter.
    + rewrite Forall_forall in *. intros x Hx.
      apply elem_of_js_filter in Hx as [Hx _]. by apply Hfrom.
Qed.

Lemma run_map_inv (t b : list Stop) (acts : list action) (init : list Stop) :
  Forall (on_map t b) acts → map_inv t b init → map_inv t b (run acts init).
Proof.
  revert init. induction acts as [|a acts IH]; intros init Hacts Hinit;
    [done |].
  apply Forall_cons in Hacts as [Ha Hacts].
  apply IH; [done |]. by apply step_map_inv.
Qed.

(** C1 (amended). Whatever the session does (selections from the map, from
    the list, removals), a monitored set in which no two entities clash (same
    stop_id, or one listing the other's id as related) stays so; this holds of
    the empty set.  When the session starts from the empty set and every
    selection is made on the map over one and the same search result, the set
    moreover holds at most one entity per class (same name and a common
    route, or one listing the other as related). *)
Theorem monitored_set_invariant (acts : list action) :
  (∀ init, store_inv init → store_inv (run acts init))
  ∧ (∀ trainStops busStops,
       Forall (on_map trainStops busStops) acts →
       one_per_class (run acts [])).
Proof.
  split.
  - intros init. apply run_store_inv.
  - intros t b Hacts.
    apply (run_map_inv t b acts []); [done |].
    split; [apply pairwise_not_nil | constructor].
Qed.

Lemma monitored_set_invariant_witness :
  store_inv
    (run [MapSelect [] [stateLakeNorth; stateLakeSouth] stateLakeNorth;
          MapSelect [] [stateLakeNorth; stateLakeSouth] stateLakeSouth;
          ListSelect clarkLake] [])
  ∧ one_per_class
      (run [MapSelect [] [stateLakeNorth; stateLakeSouth] stateLakeNorth;
            MapSelect [] [stateLakeNorth; stateLakeSouth] stateLakeSouth;
            Remove 30074] []).
Proof.
  split.
  - apply (monitored_set_invariant
             [MapSelect [] [stateLakeNorth; stateLakeSouth] stateLakeNorth;
              MapSelect [] [stateLakeNorth; stateLakeSouth] stateLakeSouth;
              ListSelect clarkLake]).
    apply pairwise_not_nil.
  - apply (monitored_set_invariant
             [MapSelect [] [stateLakeNorth; stateLakeSouth] stateLakeNorth;
              MapSelect [] [stateLakeNorth; stateLakeSouth] stateLakeSouth;
              Remove 30074])
      with (trainStops := []) (busStops := [stateLakeNorth; stateLakeSouth]).
    repeat constructor.
Defined.

(** The paired stop is turned away on the map of one search. *)
Example map_selection_groups_directions :
  run [MapSelect [] [stateLakeNorth; stateLakeSouth] stateLakeNorth;
       MapSelect [] [stateLakeNorth; stateLakeSouth] stateLakeSouth] []
  = [StopsMap.handleStopSelect [] [stateLakeNorth; stateLakeSouth]
       stateLakeNorth].
Proof. reflexivity. Qed.

(** C1 as stated fails.  Two searches that each return one direction of
    State/Lake, each selected on the map: both directions end up monitored.
    The same happens within one search when both are selected in the list,
    which passes stops on without related ids. *)
Lemma monitored_set_counterexample :
  ¬ one_per_class
      (run [MapSelect [] [stateLakeNorth] stateLakeNorth;
            MapSelect [] [stateLakeSouth] stateLakeSouth] [])
  ∧ ¬ one_per_class (run [ListSelect stateLakeNorth; ListSelect stateLakeSouth] []).
Proof.
  split; intros H.
  - apply (H 0%nat 1%nat
             (StopsMap.handleStopSelect [] [stateLakeNorth] stateLakeNorth)
             (StopsMap.handleStopSelect [] [stateLakeSouth] stateLakeSouth));
      [reflexivity | reflexivity | lia |].
    left. split; [reflexivity |].
    exists "22"%string. split; apply list_elem_of_here.
  - apply (H 0%nat 1%nat stateLakeNorth stateLakeSouth);
      [reflexivity | reflexivity | lia |].
    left. split; [reflexivity |].
    exists "22"%string. split; apply list_elem_of_here.
Qed.

(** ** ArrivalAggregator: grouping *)

Lemma boundFor_snoc (d : string) (seen : list ArrivalsList.Arrival)
  (a : ArrivalsList.Arrival) :
  boundFor d (seen ++ [a])
  = boundFor d seen
    ++ (if String.eqb (ArrivalsList.destination a) d then [a] else []).
Proof. unfold boundFor. by rewrite List.filter_app. Qed.

Lemma groupStep_groups_of (seen : list ArrivalsList.Arrival)
  (acc : gmap string (list ArrivalsList.Arrival)) (a : ArrivalsList.Arrival) :
  groups_of seen acc →
  JS.inherited (ArrivalsList.destination a) = false →
  ∃ acc', ArrivalsList.groupStep acc a = Some acc'
          ∧ groups_of (seen ++ [a]) acc'.
Proof.
  intros Hacc Hown. unfold ArrivalsList.groupStep.
  set (key := ArrivalsList.destination a) in *.
  pose proof (Hacc key) as Hkey.
  assert (∀ d g, d ≠ key →
            (<[key := g]> acc) !! d
            = match boundFor d (seen ++ [a]) with [] => None | g' => Some g' end)
    as Hother.
  { intros d g Hd. rewrite lookup_insert_ne by done.
    rewrite boundFor_snoc. fold key.
    destruct (String.eqb_spec key d) as [-> | _]; [done |].
    rewrite app_nil_r. apply Hacc. }
  destruct (acc !! key) as [group|] eqn:E.
  - eexists. split; [reflexivity |]. intros d.
    destruct (decide (d = key)) as [-> | Hd]; [| by apply Hother].
    rewrite lookup_insert_eq, boundFor_snoc. fold key.
    rewrite String.eqb_refl.
    destruct (boundFor key seen) as [|b g]; [done |].
    by injection Hkey as ->.
  - rewrite Hown. eexists. split; [reflexivity |]. intros d.
    destruct (decide (d = key)) as [-> | Hd]; [| by apply Hother].
    rewrite lookup_insert_eq, boundFor_snoc. fold key.
    rewrite String.eqb_refl.
    by destruct (boundFor key seen).
Qed.

Lemma reduce_groups_of (rest seen : list ArrivalsList.Arrival)
  (acc : gmap string (list ArrivalsList.Arrival)) :
  groups_of seen acc →
  (∀ a, a ∈ rest → JS.inherited (ArrivalsList.destination a) = false) →
  ∃ groups, JS.reduce ArrivalsList.groupStep rest acc = Some groups
            ∧ groups_of (seen ++ rest) groups.
Proof.
  revert seen acc. induction rest as [|a rest IH]; intros seen acc Hacc Hown.
  - exists acc. by rewrite app_nil_r.
  - destruct (groupStep_groups_of seen acc a Hacc) as (acc' & Hstep & Hacc').
    { apply Hown, list_elem_of_here. }
    simpl. rewrite Hstep.
    destruct (IH (seen ++ [a]) acc' Hacc') as (groups & Hred & Hgroups).
    { intros b Hb. by apply Hown, list_elem_of_further. }
    exists groups. split; [done |]. by rewrite <- app_assoc in Hgroups.
Qed.

Lemma ascending_boundFor (d : string) (arrivals : list ArrivalsList.Arrival) :
  ascending arrivals → ascending (boundFor d arrivals).
Proof.
  unfold ascending, boundFor. induction 1 as [|a l Hl IH Ha]; simpl.
  - constructor.
  - destruct (String.eqb _ _); [| done].
    constructor; [done |].
    rewrite List.Forall_forall in *. intros b Hb.
    apply filter_In in Hb as [Hb _]. by apply Ha.
Qed.

(** C3 (amended). When no destination is the name of a member of
    Object.prototype, the reduction succeeds and groups by exact equality of
    the destination strings: the group under [d] is the list of the arrivals
    bound for [d] in the order the response lists them, and a destination
    without arrivals has no group.  No sorting takes place; a group is
    ascending by minutes when the response is. *)
Theorem arrivalsByDestination_spec (arrivals : list ArrivalsList.Arrival) :
  (∀ a, a ∈ arrivals → JS.inherited (ArrivalsList.destination a) = false) →
  ∃ groups,
    ArrivalsList.arrivalsByDestination arrivals = Some groups
    ∧ (∀ d g, groups !! d = Some g ↔ g ≠ [] ∧ g = boundFor d arrivals)
    ∧ (∀ a d g, groups !! d = Some g →
                (a ∈ g ↔ a ∈ arrivals ∧ ArrivalsList.destination a = d))
    ∧ (ascending arrivals → ∀ d g, groups !! d = Some g → ascending g).
Proof.
  intros Hown.
  destruct (reduce_groups_of arrivals [] ∅) as (groups & Hred & Hgroups);
    [by intros d | done |].
  simpl in Hgroups.
  assert (∀ d g, groups !! d = Some g ↔ g ≠ [] ∧ g = boundFor d arrivals)
    as Hlookup.
  { intros d g. rewrite (Hgroups d).
    destruct (boundFor d arrivals) as [|b l]; split; try done.
    - by intros [? ->].
    - by intros [= <-].
    - by intros [_ ->]. }
  exists groups. split; [done |]. split; [done |]. split.
  - intros a d g Hg. apply Hlookup in Hg as [_ ->].
    unfold boundFor. rewrite elem_of_js_filter. by rewrite String.eqb_eq.
  - intros Hasc d g Hg. apply Hlookup in Hg as [_ ->].
    by apply ascending_boundFor.
Qed.

Lemma arrivalsByDestination_spec_witness :
  ∃ groups,
    ArrivalsList.arrivalsByDestination [howardIn 4; howardIn 12] = Some groups
    ∧ groups !! "Howard" = Some [howardIn 4; howardIn 12]
    ∧ groups !! "Midway" = None.
Proof.
  destruct (arrivalsByDestination_spec [howardIn 4; howardIn 12])
    as (groups & Heq & Hlookup & _).
  - intros a Ha.
    apply elem_of_cons in Ha as [-> | Ha]; [reflexivity |].
    apply list_elem_of_singleton in Ha. subst a. reflexivity.
  - exists groups. split; [exact Heq |]. split.
    + apply Hlookup. split; [discriminate | reflexivity].
    + destruct (groups !! "Midway") as [g|] eqn:E; [| reflexivity].
      apply Hlookup in E as [Hne ->]. by destruct Hne.
Defined.

(** C3 as stated fails: a response that lists the later Howard arrival first
    yields the group in that order, not ascending by minutes.  (And a
    destination named like a prototype member makes the reduction throw.) *)
Lemma arrivalsByDestination_counterexample :
  ArrivalsList.arrivalsByDestination [howardIn 12; howardIn 4]
  = Some {[ "Howard" := [howardIn 12; howardIn 4] ]}
  ∧ ¬ ascending [howardIn 12; howardIn 4]
  ∧ ArrivalsList.arrivalsByDestination [toConstructor] = None.
Proof.
  split; [reflexivity |]. split; [| reflexivity].
  intros Hasc. apply StronglySorted_inv in Hasc as [_ Hhead].
  apply Forall_cons in Hhead as [Hle _]. simpl in Hle. lia.
Qed.

(** ** ArrivalAggregator: failed polls *)

(** C4 (amended). A failed poll leaves the [arrivals] state as it was and
    records the error; while the error is set the component renders the error
    alert alone.  The retained arrivals are rendered again as soon as the
    next poll begins, which clears the error. *)
Theorem failed_poll_keeps_arrivals (s : ArrivalsList.state) (message : string) :
  ArrivalsList.arrivals (ArrivalsList.fetchArrivals (ArrivalsList.Thrown message) s)
  = ArrivalsList.arrivals s
  ∧ ArrivalsList.render
      (ArrivalsList.fetchArrivals (ArrivalsList.Thrown message) s)
    = Some (ArrivalsList.ErrorAlert ("Error fetching arrivals: " ++ message))
  ∧ (ArrivalsList.arrivals s ≠ [] →
     ArrivalsList.render
       (ArrivalsList.fetchArrivals_begin
          (ArrivalsList.fetchArrivals (ArrivalsList.Thrown message) s))
     = ArrivalsList.ArrivalsPaper
         <$> ArrivalsList.arrivalsByDestination (ArrivalsList.arrivals s)).
Proof.
  split; [reflexivity |]. split; [reflexivity |].
  intros Hdata. unfold ArrivalsList.render. simpl.
  by destruct (ArrivalsList.arrivals s).
Qed.

Lemma failed_poll_keeps_arrivals_witness :
  ArrivalsList.render
    (ArrivalsList.fetchArrivals_begin
       (ArrivalsList.fetchArrivals (ArrivalsList.Thrown "Failed to fetch")
          (ArrivalsList.fetchArrivals (ArrivalsList.Resolved [howardIn 4])
             ArrivalsList.initial)))
  = Some (ArrivalsList.ArrivalsPaper {[ "Howard" := [howardIn 4] ]}).
Proof.
  destruct (failed_poll_keeps_arrivals
              (ArrivalsList.fetchArrivals (ArrivalsList.Resolved [howardIn 4])
                 ArrivalsList.initial)
              "Failed to fetch") as (_ & _ & Hnext).
  rewrite Hnext; [reflexivity | discriminate].
Defined.

(** C4 as stated fails: after a success and then a failure the arrivals are
    still in the state, but what is rendered is the error alert, which shows
    no arrival. *)
Lemma failed_poll_counterexample :
  ArrivalsList.arrivals
    (ArrivalsList.fetchArrivals (ArrivalsList.Thrown "Failed to fetch")
       (ArrivalsList.fetchArrivals (ArrivalsList.Resolved [howardIn 4])
          ArrivalsList.initial))
  = [howardIn 4]
  ∧ ArrivalsList.render
      (ArrivalsList.fetchArrivals (ArrivalsList.Thrown "Failed to fetch")
         (ArrivalsList.fetchArrivals (ArrivalsList.Resolved [howardIn 4])
            ArrivalsList.initial))
    = Some (ArrivalsList.ErrorAlert "Error fetching arrivals: Failed to fetch")
  ∧ ArrivalsList.displayed
      (ArrivalsList.ErrorAlert "Error fetching arrivals: Failed to fetch")
    = [].
Proof. repeat split. Qed.

(** ** ArrivalAggregator: cadence *)




(** ** Location input *)

Lemma isNaN_false (x : JS.number) : JS.isNaN x = false ↔ numeric x.
Proof. unfold numeric. by destruct x. Qed.

Lemma Qle_bool_false (a b : Q) : Qle_bool a b = false ↔ (b < a)%Q.
Proof.
  rewrite <- not_true_iff_false, Qle_bool_iff. split.
  - apply Qnot_le_lt.
  - apply Qlt_not_le.
Qed.

Lemma range_check_false (lo hi : Z) (x : JS.number) :
  numeric x →
  JS.lt x (JS.of_Z lo) || JS.gt x (JS.of_Z hi) = false ↔ within lo hi x.
Proof.
  intros Hx. unfold within, JS.gt, JS.of_Z.
  destruct x as [| |q|]; simpl; [done | | |].
  - split; [done | by intros (? & ? & _)].
  - rewrite orb_false_iff, !negb_false_iff, !Qle_bool_iff. split.
    + intros [? ?]. by exists q.
    + by intros (? & [= <-] & ? & ?).
  - split; [done | by intros (? & ? & _)].
Qed.

Lemma radius_check_false (x : JS.number) :
  numeric x →
  JS.le x (JS.of_Z 0) || JS.gt x (JS.of_Z 2) = false ↔ admissible_radius x.
Proof.
  intros Hx. unfold admissible_radius, JS.gt, JS.of_Z.
  destruct x as [| |q|]; simpl; [done | | |].
  - split; [done | by intros (? & ? & _)].
  - rewrite orb_false_iff, negb_false_iff, Qle_bool_false, Qle_bool_iff. split.
    + intros [? ?]. by exists q.
    + by intros (? & [= <-] & ? & ?).
  - split; [done | by intros (? & ? & _)].
Qed.

Lemma within_numeric (lo hi : Z) (x : JS.number) : within lo hi x → numeric x.
Proof. by intros (q & -> & _). Qed.

Lemma admissible_radius_numeric (x : JS.number) :
  admissible_radius x → numeric x.
Proof. by intros (q & -> & _). Qed.

(** The five ways through [handleSubmit]. *)
Lemma handleSubmit_cases (parseFloat : string -> JS.number)
  (latitude longitude radius : string) :
  let lat := parseFloat latitude in
  let lon := parseFloat longitude in
  let rad := parseFloat radius in
  let result := LocationSettings.handleSubmit parseFloat latitude longitude radius in
  (¬ (numeric lat ∧ numeric lon ∧ numeric rad)
   ∧ result = LocationSettings.reject "Please enter valid numbers")
  ∨ ((numeric lat ∧ numeric lon ∧ numeric rad)
     ∧ ((¬ within (-90) 90 lat
         ∧ result = LocationSettings.reject (rangeMessage LocationSettings.Latitude))
        ∨ (within (-90) 90 lat ∧ ¬ within (-180) 180 lon
           ∧ result
             = LocationSettings.reject (rangeMessage LocationSettings.Longitude))
        ∨ (within (-90) 90 lat ∧ within (-180) 180 lon
           ∧ ¬ admissible_radius rad
           ∧ result
             = LocationSettings.reject (rangeMessage LocationSettings.Radius))
        ∨ (within (-90) 90 lat ∧ within (-180) 180 lon
           ∧ admissible_radius rad
           ∧ result
             = {| LocationSettings.error := None;
                  LocationSettings.onLocationUpdate := Some (lat, lon, rad) |}))).
Proof.
  intros lat lon rad result. subst result.
  unfold LocationSettings.handleSubmit. fold lat lon rad.
  destruct (JS.isNaN lat) eqn:Elat;
    [left; split; [| done]; intros (H & _ & _); apply isNaN_false in H; congruence |].
  destruct (JS.isNaN lon) eqn:Elon;
    [left; split; [| done]; intros (_ & H & _); apply isNaN_false in H; congruence |].
  destruct (JS.isNaN rad) eqn:Erad;
    [left; split; [| done]; intros (_ & _ & H); apply isNaN_false in H; congruence |].
  apply isNaN_false in Elat, Elon, Erad. right. split; [done |].
  cbn [orb].
  pose proof (range_check_false (-90) 90 lat Elat) as Clat.
  pose proof (range_check_false (-180) 180 lon Elon) as Clon.
  pose proof (radius_check_false rad Erad) as Crad.
  destruct (JS.lt lat (JS.of_Z (-90)) || JS.gt lat (JS.of_Z 90)).
  { left. split; [| done]. intros H. by apply Clat in H. }
  assert (within (-90) 90 lat) by by apply Clat.
  destruct (JS.lt lon (JS.of_Z (-180)) || JS.gt lon (JS.of_Z 180)).
  { right. left. split; [done |]. split; [| done].
    intros H'. by apply Clon in H'. }
  assert (within (-180) 180 lon) by by apply Clon.
  destruct (JS.le rad (JS.of_Z 0) || JS.gt rad (JS.of_Z 2)).
  { right. right. left. split; [done |]. split; [done |]. split; [| done].
    intros H'. by apply Crad in H'. }
  assert (admissible_radius rad) by by apply Crad.
  right. right. right. done.
Qed.

(** C8 (amended). [onLocationUpdate] is called, with the three parsed
    numbers and after clearing the error, exactly when the latitude lies in
    [-90, 90], the longitude in [-180, 180] and the radius in (0, 2];
    otherwise the submission is turned away with a message and no call.  The
    message is the general "Please enter valid numbers", which names no
    field, when a field does not parse to a number; otherwise it names the
    first field out of range (latitude, then longitude, then radius), and
    only that field. *)
Theorem handleSubmit_spec (parseFloat : string -> JS.number)
  (latitude longitude radius : string) :
  let lat := parseFloat latitude in
  let lon := parseFloat longitude in
  let rad := parseFloat radius in
  let result := LocationSettings.handleSubmit parseFloat latitude longitude radius in
  let valid :=
    within (-90) 90 lat ∧ within (-180) 180 lon ∧ admissible_radius rad in
  (valid →
   result = {| LocationSettings.error := None;
               LocationSettings.onLocationUpdate := Some (lat, lon, rad) |})
  ∧ (¬ valid →
     LocationSettings.onLocationUpdate result = None
     ∧ LocationSettings.error result ≠ None)
  ∧ (¬ (numeric lat ∧ numeric lon ∧ numeric rad) →
     LocationSettings.error result = Some "Please enter valid numbers")
  ∧ (numeric lat ∧ numeric lon ∧ numeric rad →
     (¬ within (-90) 90 lat →
      LocationSettings.error result
      = Some (rangeMessage LocationSettings.Latitude))
     ∧ (within (-90) 90 lat → ¬ within (-180) 180 lon →
        LocationSettings.error result
        = Some (rangeMessage LocationSettings.Longitude))
     ∧ (within (-90) 90 lat → within (-180) 180 lon →
        ¬ admissible_radius rad →
        LocationSettings.error result
        = Some (rangeMessage LocationSettings.Radius)))
  ∧ (∀ f g, LocationSettings.fieldError f (Some (rangeMessage g)) = true
            ↔ f = g)
  ∧ (∀ f, LocationSettings.fieldError f (Some "Please enter valid numbers")
          = false).
Proof.
  intros lat lon rad result valid.
  pose proof (within_numeric (-90) 90 lat) as Nlat.
  pose proof (within_numeric (-180) 180 lon) as Nlon.
  pose proof (admissible_radius_numeric rad) as Nrad.
  assert ((∀ f g, LocationSettings.fieldError f (Some (rangeMessage g)) = true
                  ↔ f = g)
          ∧ (∀ f, LocationSettings.fieldError f
                    (Some "Please enter valid numbers") = false))
    as [Hfield Hgeneral].
  { split; [| by intros []].
    intros [] []; split; (reflexivity || discriminate). }
  destruct (handleSubmit_cases parseFloat latitude longitude radius)
    as [[Hnot E] | [Hnum [[Hlat E] | [(Hlat & Hlon & E)
                             | [(Hlat & Hlon & Hrad & E)
                               | (Hlat & Hlon & Hrad & E)]]]]];
    fold lat lon rad result in E, Hnot || fold lat lon rad result in E;
    rewrite E; subst valid; simpl;
    repeat split; try done; try tauto; by apply Hfield.
Qed.

Lemma handleSubmit_spec_witness :
  LocationSettings.error
    (LocationSettings.handleSubmit parseFloatOn "41.8781" "-87.6298" "3")
  = Some "Radius must be between 0 and 2 miles"
  ∧ LocationSettings.onLocationUpdate
      (LocationSettings.handleSubmit parseFloatOn "41.8781" "-87.6298" "3")
    = None
  ∧ LocationSettings.handleSubmit parseFloatOn "41.8781" "-87.6298" "0.5"
    = {| LocationSettings.error := None;
         LocationSettings.onLocationUpdate :=
           Some (downtown_lat, downtown_lon, JS.Finite (1 # 2)) |}.
Proof.
  assert (within (-90) 90 downtown_lat) as Hlat.
  { eexists. split; [reflexivity |]. unfold Qle. simpl. lia. }
  assert (within (-180) 180 downtown_lon) as Hlon.
  { eexists. split; [reflexivity |]. unfold Qle. simpl. lia. }
  assert (¬ admissible_radius (JS.Finite 3)) as Hwide.
  { intros (q & Hq & _ & Hle). injection Hq as <-.
    unfold Qle in Hle. simpl in Hle. lia. }
  destruct (handleSubmit_spec parseFloatOn "41.8781" "-87.6298" "3")
    as (_ & Hinvalid & _ & Hrange & _).
  destruct (handleSubmit_spec parseFloatOn "41.8781" "-87.6298" "0.5")
    as (Hvalid & _).
  split; [| split].
  - destruct Hrange as (_ & _ & Hradius); [by repeat split |].
    by apply Hradius.
  - apply Hinvalid. by intros (_ & _ & Hrad).
  - apply Hvalid. split; [exact Hlat |]. split; [exact Hlon |].
    eexists. split; [reflexivity |]. unfold Qlt, Qle. simpl. lia.
Defined.

(** C8 as stated fails: a latitude that is not a number is turned away with
    a message that names no field, so no field is marked. *)
Lemma handleSubmit_counterexample :
  LocationSettings.handleSubmit parseFloatOn "abc" "-87.6298" "0.5"
  = {| LocationSettings.error := Some "Please enter valid numbers";
       LocationSettings.onLocationUpdate := None |}
  ∧ ∀ f, LocationSettings.fieldError f
           (LocationSettings.error
              (LocationSettings.handleSubmit parseFloatOn "abc" "-87.6298" "0.5"))
         = false.
Proof. split; [reflexivity | by intros []]. Qed.

(** * Further properties of the components *)

(** ** StopsMap: related stops *)

Lemma js_filter_sublist {A : Type} (f : A -> bool) (l : list A) :
  List.filter f l `sublist_of` l.
Proof.
  induction l as [|a l IH]; simpl; [done |].
  destruct (f a); [by apply sublist_skip | by apply sublist_cons].
Qed.

Lemma sameNameSharedRoute_refl (stop : Stop) :
  routes stop ≠ [] → StopsMap.sameNameSharedRoute stop stop = true.
Proof.
  intros Hroutes. apply sameNameSharedRoute_true. split; [done |].
  destruct (routes stop) as [|r rs] eqn:E; [done |].
  exists r. unfold shares_route. rewrite E. split; apply list_elem_of_here.
Qed.

(** X1. The stops related to a stop all bear its name, and each is the stop
    itself or a stop of the map that shares a route with it; the stop itself
    is among them whenever it is on the map or serves no route. *)
Theorem findRelatedStops_spec (stop : Stop) (allStops : list Stop) :
  (stop ∈ allStops ∨ routes stop = [] →
   stop ∈ StopsMap.findRelatedStops stop allStops)
  ∧ (∀ s, s ∈ StopsMap.findRelatedStops stop allStops →
          stop_name s = stop_name stop
          ∧ (s = stop ∨ (s ∈ allStops ∧ shares_route s stop))).
Proof.
  unfold StopsMap.findRelatedStops.
  destruct (routes stop) as [|r rs] eqn:E; simpl.
  - split.
    + intros _. apply list_elem_of_here.
    + intros s Hs. apply list_elem_of_singleton in Hs. subst s.
      split; [done | by left].
  - assert (routes stop ≠ []) as Hne by by rewrite E.
    split.
    + intros [Hin | Hnil]; [| done].
      apply elem_of_js_filter. split; [done |].
      by apply sameNameSharedRoute_refl.
    + intros s Hs. apply elem_of_js_filter in Hs as [Hin Hrel].
      apply sameNameSharedRoute_true in Hrel as [Hname Hshare].
      split; [done |]. right. by split.
Qed.

Lemma findRelatedStops_spec_witness :
  stateLakeNorth
  ∈ StopsMap.findRelatedStops stateLakeNorth [stateLakeSouth; stateLakeNorth].
Proof.
  apply (findRelatedStops_spec stateLakeNorth [stateLakeSouth; stateLakeNorth]).
  left. apply list_elem_of_further, list_elem_of_here.
Defined.

Lemma relatedStopIds_ext (stop stop' : Stop) (allStops : list Stop) :
  stop_id stop' = stop_id stop → stop_name stop' = stop_name stop →
  routes stop' = routes stop →
  StopsMap.relatedStopIds stop' allStops = StopsMap.relatedStopIds stop allStops.
Proof.
  intros Hid Hname Hroutes.
  unfold StopsMap.relatedStopIds, StopsMap.findRelatedStops,
    StopsMap.sameNameSharedRoute.
  rewrite Hid, Hname, Hroutes.
  destruct (routes stop); simpl; [| done].
  by rewrite Hid, !Z.eqb_refl.
Qed.

(** X2. The stop that the map hands over always carries a list of related
    ids; the list never holds the stop's own id, every id in it is the id of
    a stop shown on the map, and it does not depend on related ids the stop
    carried before: handing over the result again changes nothing. *)
Theorem map_selection_related_ids (trainStops busStops : list Stop)
  (stop : Stop) :
  ∃ ids,
    related_stop_ids (StopsMap.handleStopSelect trainStops busStops stop)
    = Some ids
    ∧ (stop_id stop ∉ ids)
    ∧ (∀ i, i ∈ ids → ∃ s, s ∈ trainStops ++ busStops ∧ stop_id s = i)
    ∧ StopsMap.handleStopSelect trainStops busStops
        (StopsMap.handleStopSelect trainStops busStops stop)
      = StopsMap.handleStopSelect trainStops busStops stop.
Proof.
  eexists. split; [reflexivity |]. split; [| split].
  - intros Hin. apply elem_of_relatedStopIds in Hin as (s & _ & Heq & Hne & _).
    done.
  - intros i Hin. apply elem_of_relatedStopIds in Hin as (s & Hs & Heq & _).
    by exists s.
  - unfold StopsMap.handleStopSelect at 1. simpl.
    unfold StopsMap.handleStopSelect at 2. f_equal. f_equal.
    by apply relatedStopIds_ext.
Qed.

(** X3. When the stops shown on the map have distinct ids, the related ids
    attached to a selected stop are distinct too. *)
Theorem relatedStopIds_NoDup (stop : Stop) (allStops : list Stop) :
  NoDup (stop_id <$> allStops) →
  NoDup (StopsMap.relatedStopIds stop allStops).
Proof.
  intros Hnd. unfold StopsMap.relatedStopIds, StopsMap.findRelatedStops.
  destruct (Nat.eqb (length (routes stop)) 0).
  - simpl. rewrite Z.eqb_refl. simpl. constructor.
  - apply (sublist_NoDup _ (stop_id <$> allStops)); [exact Hnd |].
    apply (fmap_sublist stop_id).
    etrans; apply js_filter_sublist.
Qed.

Lemma relatedStopIds_NoDup_witness :
  NoDup (StopsMap.relatedStopIds stateLakeNorth
           [stateLakeNorth; stateLakeSouth; clarkLake]).
Proof.
  apply (relatedStopIds_NoDup stateLakeNorth
           [stateLakeNorth; stateLakeSouth; clarkLake]).
  apply (bool_decide_unpack _). vm_compute. exact I.
Defined.

(** ** The monitored set: how the operations compose *)

(** X4. The list's button is disabled only for stops that the store would
    turn away anyway, so a click in the list, enabled or not, has exactly the
    effect of handing the row's stop to the store. *)
Theorem list_button_agrees_with_store (S : list Stop) (x : Stop) :
  (StopsList.disabled (StopsList.renderStopItem S x) = true →
   App.handleStopSelect x S = {| App.next := S; App.posted := None |})
  ∧ step S (ListSelect x) = App.next (App.handleStopSelect x S).
Proof.
  assert (StopsList.isStopMonitored S x = true →
          App.handleStopSelect x S = {| App.next := S; App.posted := None |})
    as Hdisabled.
  { intros H. apply list_isStopMonitored_true in H as (s & Hs & Hid).
    unfold App.handleStopSelect.
    assert (App.isStopMonitored S x = true) as ->; [| done].
    apply isStopMonitored_true. exists s. split; [done | by left]. }
  split; [exact Hdisabled |].
  simpl. destruct (StopsList.isStopMonitored S x) eqn:E; [| done].
  by rewrite Hdisabled.
Qed.

Lemma list_button_agrees_with_store_witness :
  App.handleStopSelect stateLakeNorth [stateLakeNorth]
  = {| App.next := [stateLakeNorth]; App.posted := None |}.
Proof.
  apply (list_button_agrees_with_store [stateLakeNorth] stateLakeNorth).
  reflexivity.
Defined.

(** X5. A stop that a monitored entity lists as related, and whose own id is
    not monitored, is offered in the list with an enabled button; pressing it
    changes nothing and saves nothing. *)
Theorem related_row_click_is_noop (S : list Stop) (x s : Stop) :
  s ∈ S → lists_related s (stop_id x) →
  (∀ s', s' ∈ S → stop_id s' ≠ stop_id x) →
  StopsList.disabled (StopsList.renderStopItem S x) = false
  ∧ stepUpdate S (ListSelect x) = {| App.next := S; App.posted := None |}.
Proof.
  intros Hs Hrel Hfresh.
  assert (StopsList.isStopMonitored S x = false) as Hlist.
  { apply not_true_is_false. intros H.
    apply list_isStopMonitored_true in H as (s' & Hs' & Hid).
    by apply (Hfresh s'). }
  split; [exact Hlist |].
  unfold stepUpdate. simpl. rewrite Hlist.
  unfold App.handleStopSelect.
  assert (App.isStopMonitored S x = true) as ->; [| done].
  apply isStopMonitored_true. exists s. split; [done |]. right. by left.
Qed.

Lemma related_row_click_is_noop_witness :
  stepUpdate
    [StopsMap.handleStopSelect [] [stateLakeNorth; stateLakeSouth] stateLakeNorth]
    (ListSelect stateLakeSouth)
  = {| App.next :=
         [StopsMap.handleStopSelect [] [stateLakeNorth; stateLakeSouth]
            stateLakeNorth];
       App.posted := None |}.
Proof.
  apply (related_row_click_is_noop
           [StopsMap.handleStopSelect [] [stateLakeNorth; stateLakeSouth]
              stateLakeNorth]
           stateLakeSouth
           (StopsMap.handleStopSelect [] [stateLakeNorth; stateLakeSouth]
              stateLakeNorth)).
  - apply list_elem_of_here.
  - exists [1002%Z]. split; [reflexivity | apply list_elem_of_here].
  - intros s' Hs'. apply list_elem_of_singleton in Hs'. subst s'. discriminate.
Defined.

Lemma js_filter_all {A : Type} (f : A -> bool) (l : list A) :
  (∀ x, x ∈ l → f x = true) → List.filter f l = l.
Proof.
  induction l as [|a l IH]; intros H; simpl; [done |].
  rewrite (H a) by apply list_elem_of_here.
  f_equal. apply IH. intros x Hx. by apply H, list_elem_of_further.
Qed.

(** X6. Removing a stop's id right after adding the stop gives the set that
    removing the id from the original set gives; when no entity of the
    original set had that id, it gives the original set back. *)
Theorem remove_after_add (S : list Stop) (x : Stop) :
  App.next
    (App.handleStopRemove (stop_id x) (App.next (App.handleStopSelect x S)))
  = App.next (App.handleStopRemove (stop_id x) S)
  ∧ ((∀ s, s ∈ S → stop_id s ≠ stop_id x) →
     App.next
       (App.handleStopRemove (stop_id x) (App.next (App.handleStopSelect x S)))
     = S).
Proof.
  assert (App.next
            (App.handleStopRemove (stop_id x)
               (App.next (App.handleStopSelect x S)))
          = App.next (App.handleStopRemove (stop_id x) S)) as Heq.
  { destruct (handleStopSelect_next x S) as [[_ ->] | [_ ->]]; [done |].
    unfold App.handleStopRemove. simpl.
    rewrite List.filter_app. simpl. rewrite Z.eqb_refl. simpl.
    by rewrite app_nil_r. }
  split; [exact Heq |].
  intros Hfresh. rewrite Heq. unfold App.handleStopRemove. simpl.
  apply js_filter_all. intros s Hs. apply neqb_true. by apply Hfresh.
Qed.

Lemma remove_after_add_witness :
  App.next
    (App.handleStopRemove 30074
       (App.next (App.handleStopSelect clarkLake [stateLakeNorth])))
  = [stateLakeNorth].
Proof.
  apply (remove_after_add [stateLakeNorth] clarkLake).
  intros s Hs. apply list_elem_of_singleton in Hs. subst s. discriminate.
Defined.

(** X7. Whatever the monitored set (also one loaded with repeated ids),
    [remove(id)] drops as many entities as have that id; when no entity has
    it, the set is returned as it is. *)
Theorem remove_counts (S : list Stop) (id : Z) :
  (length (App.next (App.handleStopRemove id S))
   + count_occ Z.eq_dec (stop_id <$> S) id = length S)%nat
  ∧ (id ∉ stop_id <$> S → App.next (App.handleStopRemove id S) = S).
Proof.
  unfold App.handleStopRemove. simpl. split.
  - induction S as [|a S IH]; [done |].
    rewrite fmap_cons. simpl.
    destruct (Z.eq_dec (stop_id a) id) as [-> | Hne].
    + rewrite Z.eqb_refl. simpl. lia.
    + apply Z.eqb_neq in Hne. rewrite Hne. simpl. lia.
  - intros Hid. apply js_filter_all. intros s Hs. apply neqb_true.
    intros Heq. apply Hid. rewrite <- Heq. by apply list_elem_of_fmap_2.
Qed.

Lemma remove_counts_witness :
  App.next (App.handleStopRemove 7 [stateLakeNorth; clarkLake])
  = [stateLakeNorth; clarkLake].
Proof.
  apply (remove_counts [stateLakeNorth; clarkLake] 7).
  apply (bool_decide_unpack _). vm_compute. exact I.
Defined.

Lemma add_free (S : list Stop) (x : Stop) :
  ¬ clashes S x →
  App.handleStopSelect x S
  = {| App.next := S ++ [x]; App.posted := Some (S ++ [x]) |}.
Proof.
  intros H. apply isStopMonitored_false in H.
  unfold App.handleStopSelect. by rewrite H.
Qed.

(** X8. Removal can open the way for a stop that was turned away: when every
    monitored entity that clashes with [x] has the id being removed, [x] is
    accepted right after the removal. *)
Theorem remove_unblocks_add (S : list Stop) (x : Stop) (id : Z) :
  (∀ s, s ∈ S → id_clash s x → stop_id s = id) →
  App.handleStopSelect x (App.next (App.handleStopRemove id S))
  = {| App.next := App.next (App.handleStopRemove id S) ++ [x];
       App.posted := Some (App.next (App.handleStopRemove id S) ++ [x]) |}.
Proof.
  intros Honly. apply add_free.
  intros (s & Hs & Hclash).
  unfold App.handleStopRemove in Hs. simpl in Hs.
  apply elem_of_js_filter in Hs as [Hs Hne]. apply neqb_true in Hne.
  by apply Hne, Honly.
Qed.

Lemma remove_unblocks_add_witness :
  App.next
    (App.handleStopSelect stateLakeSouth
       (App.next
          (App.handleStopRemove 1001
             [StopsMap.handleStopSelect [] [stateLakeNorth; stateLakeSouth]
                stateLakeNorth])))
  = [stateLakeSouth].
Proof.
  rewrite (remove_unblocks_add
             [StopsMap.handleStopSelect [] [stateLakeNorth; stateLakeSouth]
                stateLakeNorth]
             stateLakeSouth 1001).
  - reflexivity.
  - intros s Hs _. apply list_elem_of_singleton in Hs. subst s. reflexivity.
Defined.

Lemma step_stepUpdate (S : list Stop) (a : action) :
  step S a = App.next (stepUpdate S a).
Proof.
  destruct a as [t b stop | stop | stopId]; simpl; try done.
  by destruct (StopsList.isStopMonitored S stop).
Qed.

Lemma handleStopSelect_posted (x : Stop) (S : list Stop) :
  (App.posted (App.handleStopSelect x S) = None
   ∧ App.next (App.handleStopSelect x S) = S)
  ∨ App.posted (App.handleStopSelect x S)
    = Some (App.next (App.handleStopSelect x S)).
Proof.
  unfold App.handleStopSelect.
  destruct (App.isStopMonitored S x); simpl; auto.
Qed.

Lemma stepUpdate_posted (S : list Stop) (a : action) :
  (App.posted (stepUpdate S a) = None ∧ App.next (stepUpdate S a) = S)
  ∨ App.posted (stepUpdate S a) = Some (App.next (stepUpdate S a)).
Proof.
  destruct a as [t b stop | stop | stopId]; simpl.
  - apply handleStopSelect_posted.
  - destruct (StopsList.isStopMonitored S stop); simpl; [by left |].
    apply handleStopSelect_posted.
  - by right.
Qed.

Lemma session_saved (acts : list action) (S : list Stop)
  (saved : option (list Stop)) :
  fst (session acts S saved) = run acts S
  ∧ (snd (session acts S saved) = Some (run acts S)
     ∨ (snd (session acts S saved) = saved ∧ run acts S = S)).
Proof.
  revert S saved. induction acts as [|a acts IH]; intros S saved; simpl.
  - split; [done | by right].
  - rewrite step_stepUpdate.
    destruct (IH (App.next (stepUpdate S a))
                (match App.posted (stepUpdate S a) with
                 | Some snapshot => Some snapshot
                 | None => saved
                 end)) as [Hfst Hsnd].
    split; [done |].
    destruct Hsnd as [Hnew | [Hold Hsame]]; [by left |].
    rewrite Hold, Hsame.
    destruct (stepUpdate_posted S a) as [[-> ->] | ->]; [by right | by left].
Qed.

(** X9. Through any session, the snapshot saved last is the monitored set as
    it stands; as long as nothing has been saved, the set is still the one
    the session started from. *)
Theorem saved_snapshot_is_current (acts : list action) (init : list Stop) :
  fst (session acts init None) = run acts init
  ∧ (snd (session acts init None) = Some (run acts init)
     ∨ (snd (session acts init None) = None ∧ run acts init = init)).
Proof. apply session_saved. Qed.

(** X10. Selections never reorder or drop what is monitored: through a
    session without removals, the set it started from stays in front, in its
    order. *)
Theorem selections_append (acts : list action) (init : list Stop) :
  Forall (λ a, match a with Remove _ => False | _ => True end) acts →
  init `prefix_of` run acts init.
Proof.
  revert init. induction acts as [|a acts IH]; intros init Hacts; [done |].
  apply Forall_cons in Hacts as [Ha Hacts]. simpl.
  etrans; [| by apply IH].
  rewrite step_stepUpdate.
  destruct a as [t b stop | stop | stopId]; simpl; [| | done].
  - destruct (handleStopSelect_next (StopsMap.handleStopSelect t b stop) init)
      as [[_ ->] | [_ ->]]; [done | by apply prefix_app_r].
  - destruct (StopsList.isStopMonitored init stop); [done |].
    destruct (handleStopSelect_next stop init)
      as [[_ ->] | [_ ->]]; [done | by apply prefix_app_r].
Qed.

Lemma selections_append_witness :
  [stateLakeNorth]
  `prefix_of` run [ListSelect clarkLake; ListSelect stateLakeSouth]
                [stateLakeNorth].
Proof.
  apply (selections_append [ListSelect clarkLake; ListSelect stateLakeSouth]
           [stateLakeNorth]).
  repeat constructor.
Defined.

(** ** ArrivalsList: what grouping keeps and when it fails *)

Lemma concat_Permutation {A : Type} (l k : list (list A)) :
  l ≡ₚ k → concat l ≡ₚ concat k.
Proof.
  induction 1 as [| x l k _ IH | x y l | l k m _ IH1 _ IH2]; simpl.
  - done.
  - by rewrite IH.
  - rewrite !app_assoc. f_equiv. apply Permutation_app_comm.
  - by etrans.
Qed.

(** The arrivals held by a grouping, group after group. *)
Lemma grouped_insert (acc : gmap string (list ArrivalsList.Arrival))
  (key : string) (group : list ArrivalsList.Arrival) :
  concat (snd <$> map_to_list (<[key := group]> acc))
  ≡ₚ group ++ concat (snd <$> map_to_list (delete key acc)).
Proof.
  rewrite <- insert_delete_eq.
  rewrite (concat_Permutation _ (snd <$> (key, group) :: map_to_list (delete key acc))).
  - done.
  - apply fmap_Permutation, map_to_list_insert, lookup_delete_eq.
Qed.

Lemma grouped_delete (acc : gmap string (list ArrivalsList.Arrival))
  (key : string) :
  concat (snd <$> map_to_list acc)
  ≡ₚ default [] (acc !! key) ++ concat (snd <$> map_to_list (delete key acc)).
Proof.
  destruct (acc !! key) as [group|] eqn:E; simpl.
  - rewrite (concat_Permutation _ (snd <$> (key, group) :: map_to_list (delete key acc))).
    + done.
    + apply fmap_Permutation. symmetry. by apply map_to_list_delete.
  - by rewrite delete_id.
Qed.

Lemma groupStep_keeps (acc acc' : gmap string (list ArrivalsList.Arrival))
  (a : ArrivalsList.Arrival) :
  ArrivalsList.groupStep acc a = Some acc' →
  concat (snd <$> map_to_list acc')
  ≡ₚ concat (snd <$> map_to_list acc) ++ [a].
Proof.
  unfold ArrivalsList.groupStep.
  set (key := ArrivalsList.destination a).
  rewrite (grouped_delete acc key).
  destruct (acc !! key) as [group|] eqn:E; simpl.
  - intros [= <-]. rewrite grouped_insert.
    rewrite <- !app_assoc. f_equiv. apply Permutation_app_comm.
  - destruct (JS.inherited key); [done |].
    intros [= <-]. rewrite grouped_insert. simpl.
    apply Permutation_cons_append.
Qed.

Lemma reduce_keeps (rest : list ArrivalsList.Arrival)
  (acc groups : gmap string (list ArrivalsList.Arrival)) :
  JS.reduce ArrivalsList.groupStep rest acc = Some groups →
  concat (snd <$> map_to_list groups)
  ≡ₚ concat (snd <$> map_to_list acc) ++ rest.
Proof.
  revert acc. induction rest as [|a rest IH]; intros acc; simpl.
  - intros [= <-]. by rewrite app_nil_r.
  - destruct (ArrivalsList.groupStep acc a) as [acc'|] eqn:E; [| done].
    intros Hred. rewrite (IH _ Hred), (groupStep_keeps _ _ _ E).
    by rewrite <- app_assoc.
Qed.

(** X11. Grouping neither loses nor repeats an arrival: the arrivals put on
    screen, taken over all groups, are the arrivals of the response up to
    their order. *)
Theorem grouping_keeps_arrivals (arrivals : list ArrivalsList.Arrival)
  (groups : gmap string (list ArrivalsList.Arrival)) :
  ArrivalsList.arrivalsByDestination arrivals = Some groups →
  ArrivalsList.displayed (ArrivalsList.ArrivalsPaper groups) ≡ₚ arrivals.
Proof.
  intros Hred. apply reduce_keeps in Hred.
  by rewrite map_to_list_empty in Hred.
Qed.

Lemma grouping_keeps_arrivals_witness :
  ArrivalsList.displayed
    (ArrivalsList.ArrivalsPaper {[ "Howard" := [howardIn 12; howardIn 4] ]})
  ≡ₚ [howardIn 12; howardIn 4].
Proof.
  apply (grouping_keeps_arrivals [howardIn 12; howardIn 4]).
  reflexivity.
Defined.

Lemma reduce_throws (rest : list ArrivalsList.Arrival)
  (acc : gmap string (list ArrivalsList.Arrival)) :
  (∀ key, is_Some (acc !! key) → JS.inherited key = false) →
  JS.reduce ArrivalsList.groupStep rest acc = None
  ↔ ∃ a, a ∈ rest ∧ JS.inherited (ArrivalsList.destination a) = true.
Proof.
  revert acc. induction rest as [|a rest IH]; intros acc Hown; simpl.
  - split; [done |]. intros (a & Ha & _). by apply not_elem_of_nil in Ha.
  - unfold ArrivalsList.groupStep.
    set (key := ArrivalsList.destination a).
    assert (∀ group k, JS.inherited key = false →
              is_Some ((<[key := group]> acc) !! k) → JS.inherited k = false)
      as Hown'.
    { intros group k Hkey Hk. destruct (decide (k = key)) as [-> | Hne];
        [done |]. rewrite lookup_insert_ne in Hk by done. by apply Hown. }
    destruct (JS.inherited key) eqn:Ekey.
    + assert (acc !! key = None) as ->.
      { destruct (acc !! key) eqn:E; [| done].
        rewrite Hown in Ekey; [done | by rewrite E]. }
      split; [| done]. intros _. exists a. split; [apply list_elem_of_here | done].
    + assert (∀ acc', (∀ k, is_Some (acc' !! k) → JS.inherited k = false) →
                JS.reduce ArrivalsList.groupStep rest acc' = None
                ↔ ∃ a0, a0 ∈ a :: rest
                        ∧ JS.inherited (ArrivalsList.destination a0) = true)
        as Hrest.
      { intros acc' Hacc'. rewrite (IH acc' Hacc'). split.
        - intros (b & Hb & Hinh). exists b. split; [by apply list_elem_of_further | done].
        - intros (b & Hb & Hinh). apply elem_of_cons in Hb as [-> | Hb].
          + fold key in Hinh. congruence.
          + by exists b. }
      destruct (acc !! key) as [group|]; apply Hrest; intros k;
        by apply Hown'.
Qed.

(** X12. Building the groups throws exactly when some arrival's destination
    is the name of a member of Object.prototype; for every other response it
    yields a grouping. *)
Theorem grouping_throws_iff (arrivals : list ArrivalsList.Arrival) :
  ArrivalsList.arrivalsByDestination arrivals = None
  ↔ ∃ a, a ∈ arrivals ∧ JS.inherited (ArrivalsList.destination a) = true.
Proof.
  apply reduce_throws. intros key [group Hgroup].
  by rewrite lookup_empty in Hgroup.
Qed.

(** X13. The empty paper ("No upcoming arrivals") is rendered exactly when
    the state holds no arrivals, no poll has its loading flag up and no error
    is set. *)
Theorem no_upcoming_arrivals_iff (s : ArrivalsList.state) :
  ArrivalsList.render s = Some (ArrivalsList.ArrivalsPaper ∅)
  ↔ ArrivalsList.arrivals s = []
    ∧ ArrivalsList.loading s = false
    ∧ JS.truthy (ArrivalsList.error s) = false.
Proof.
  unfold ArrivalsList.render. split.
  - destruct (ArrivalsList.loading s
              && Nat.eqb (length (ArrivalsList.arrivals s)) 0) eqn:Eload;
      [done |].
    destruct (JS.truthy (ArrivalsList.error s)); [done |].
    destruct (ArrivalsList.arrivalsByDestination (ArrivalsList.arrivals s))
      as [groups|] eqn:Egroups; [| done].
    intros [= ->].
    apply reduce_keeps in Egroups.
    rewrite map_to_list_empty in Egroups. simpl in Egroups.
    apply Permutation_nil_l in Egroups. rewrite <- Egroups in Eload |- *.
    simpl in Eload. rewrite andb_true_r in Eload. done.
  - intros (-> & -> & ->). reflexivity.
Qed.

Lemma run_snoc (events : list ArrivalsList.event) (e : ArrivalsList.event)
  (s : ArrivalsList.state) :
  ArrivalsList.run (events ++ [e]) s
  = ArrivalsList.step (ArrivalsList.run events s) e.
Proof. unfold ArrivalsList.run. by rewrite fold_left_app. Qed.

Lemma arrivals_are_last_response_aux (events : list ArrivalsList.event)
  (s : ArrivalsList.state) :
  ArrivalsList.arrivals (ArrivalsList.run events s)
  = default (ArrivalsList.arrivals s)
      (last (omap ArrivalsList.resolved events)).
Proof.
  induction events as [|e events IH] using rev_ind; [done |].
  rewrite run_snoc, omap_app, last_app.
  destruct e as [| [data | message]]; simpl; done.
Qed.

(** X14. However the polls of an entity interleave, the arrivals in the
    state are the body of the response that settled last; failures and
    starting polls never touch them. *)
Theorem arrivals_are_last_response (events : list ArrivalsList.event)
  (s : ArrivalsList.state) :
  ArrivalsList.arrivals (ArrivalsList.run events s)
  = default (ArrivalsList.arrivals s)
      (last (omap ArrivalsList.resolved events)).
Proof. apply arrivals_are_last_response_aux. Qed.

Lemma late_responses (responses : list (list ArrivalsList.Arrival))
  (s : ArrivalsList.state) (e : option string) :
  ArrivalsList.error s = e → ArrivalsList.loading s = false →
  ArrivalsList.error
    (ArrivalsList.run
       ((λ data, ArrivalsList.Settle (ArrivalsList.Resolved data))
          <$> responses) s) = e
  ∧ ArrivalsList.loading
      (ArrivalsList.run
         ((λ data, ArrivalsList.Settle (ArrivalsList.Resolved data))
            <$> responses) s) = false.
Proof.
  revert s. induction responses as [|data responses IH]; intros s He Hl;
    [done |].
  rewrite fmap_cons. apply IH; done.
Qed.

(** X15. When polls overlap, responses that settle after a failure do not
    clear its error: their arrivals go into the state, but the error alert
    stays on screen in their place (until a poll begins again). *)
Theorem late_responses_keep_error (s : ArrivalsList.state) (message : string)
  (responses : list (list ArrivalsList.Arrival)) :
  ArrivalsList.arrivals
    (ArrivalsList.run
       (ArrivalsList.Settle (ArrivalsList.Thrown message)
        :: ((λ data, ArrivalsList.Settle (ArrivalsList.Resolved data))
              <$> responses)) s)
  = default (ArrivalsList.arrivals s) (last responses)
  ∧ ArrivalsList.render
      (ArrivalsList.run
         (ArrivalsList.Settle (ArrivalsList.Thrown message)
          :: ((λ data, ArrivalsList.Settle (ArrivalsList.Resolved data))
                <$> responses)) s)
    = Some (ArrivalsList.ErrorAlert ("Error fetching arrivals: " ++ message)).
Proof.
  split.
  - assert (omap ArrivalsList.resolved
              ((λ data, ArrivalsList.Settle (ArrivalsList.Resolved data))
                 <$> responses) = responses) as Hresp.
    { induction responses as [|data responses IH]; [done |].
      rewrite fmap_cons. simpl. by f_equal. }
    rewrite arrivals_are_last_response_aux.
    change (omap ArrivalsList.resolved
              (ArrivalsList.Settle (ArrivalsList.Thrown message) :: ?l))
      with (omap ArrivalsList.resolved l).
    by rewrite Hresp.
  - simpl.
    destruct (late_responses responses
                (ArrivalsList.fetchArrivals_settle
                   (ArrivalsList.Thrown message) s)
                (Some ("Error fetching arrivals: " ++ message)%string))
      as [Herr Hload]; [done | done |].
    unfold ArrivalsList.render, ArrivalsList.run in *.
    by rewrite Herr, Hload.
Qed.

(** X16. Once arrivals are held, the spinner does not come back as long as
    no response is empty, however polls begin, fail and settle. *)
Theorem spinner_only_without_arrivals (events : list ArrivalsList.event)
  (s : ArrivalsList.state) :
  ArrivalsList.arrivals s ≠ [] →
  Forall (λ e, ArrivalsList.resolved e ≠ Some []) events →
  ArrivalsList.render (ArrivalsList.run events s) ≠ Some ArrivalsList.Spinner.
Proof.
  intros Hdata Hevents.
  assert (ArrivalsList.arrivals (ArrivalsList.run events s) ≠ []) as Hkept.
  { revert s Hdata. induction Hevents as [|e events He _ IH]; intros s Hdata;
      [done |].
    apply IH. destruct e as [| [data | message]]; simpl; try done.
    intros ->. by apply He. }
  unfold ArrivalsList.render.
  destruct (ArrivalsList.arrivals (ArrivalsList.run events s)) as [|a l];
    [done |].
  simpl. rewrite andb_false_r.
  destruct (JS.truthy _); [done |].
  by destruct (ArrivalsList.arrivalsByDestination (a :: l)).
Qed.

Lemma spinner_only_without_arrivals_witness :
  ArrivalsList.render
    (ArrivalsList.run
       [ArrivalsList.Begin; ArrivalsList.Settle (ArrivalsList.Thrown "timeout");
        ArrivalsList.Begin]
       (ArrivalsList.fetchArrivals (ArrivalsList.Resolved [howardIn 4])
          ArrivalsList.initial))
  ≠ Some ArrivalsList.Spinner.
Proof.
  apply (spinner_only_without_arrivals
           [ArrivalsList.Begin;
            ArrivalsList.Settle (ArrivalsList.Thrown "timeout");
            ArrivalsList.Begin]).
  - discriminate.
  - repeat constructor; discriminate.
Defined.

(** X17. When every request settles within [n] refresh intervals, at most
    [n] polls of an entity are outstanding at any time. *)
Theorem outstanding_polls_bounded (mounted : Z) (latency : nat -> Z) (n : nat)
  (t : Z) (polls : list nat) :
  (∀ k, (latency k <= 30000 * Z.of_nat n)%Z) →
  NoDup polls →
  (∀ k, k ∈ polls → ArrivalsList.outstanding mounted latency k t = true) →
  (length polls <= n)%nat.
Proof.
  intros Hlat Hnd Hout.
  set (hi := Z.to_nat ((t - mounted) / 30000)).
  assert (∀ k, k ∈ polls → k ∈ seq (hi + 1 - n) n) as Hin.
  { intros k Hk. specialize (Hout k Hk). specialize (Hlat k).
    unfold ArrivalsList.outstanding, ArrivalsList.pollSettledAt,
      ArrivalsList.pollStartedAt, ArrivalsList.REFRESH_MS in Hout.
    apply andb_true_iff in Hout as [Hstart Hsettle].
    apply Z.leb_le in Hstart. apply Z.ltb_lt in Hsettle.
    apply elem_of_seq.
    assert (0 <= t - mounted)%Z by lia.
    pose proof (Z.div_mod (t - mounted) 30000) as Hdiv.
    pose proof (Z.mod_pos_bound (t - mounted) 30000) as Hmod.
    assert (0 <= (t - mounted) / 30000)%Z by (apply Z.div_pos; lia).
    subst hi. lia. }
  apply NoDup_submseteq in Hin; [| done].
  apply submseteq_length in Hin. by rewrite length_seq in Hin.
Qed.

Lemma outstanding_polls_bounded_witness :
  ArrivalsList.outstanding 0 (fun _ => 45000%Z) 1 65000 = true
  ∧ ArrivalsList.outstanding 0 (fun _ => 45000%Z) 2 65000 = true
  ∧ (length [1%nat; 2%nat] <= 2)%nat.
Proof.
  split; [reflexivity |]. split; [reflexivity |].
  apply (outstanding_polls_bounded 0 (fun _ => 45000%Z) 2 65000 [1%nat; 2%nat]).
  - intros k. lia.
  - apply (bool_decide_unpack _). vm_compute. exact I.
  - intros k Hk. apply elem_of_cons in Hk as [-> | Hk]; [reflexivity |].
    apply list_elem_of_singleton in Hk. subst k. reflexivity.
Defined.

(** ** The search: form, geolocation and results *)

Lemma handleSubmit_accepts (parseFloat : string -> JS.number)
  (latitude longitude radius : string) (a b c : JS.number) :
  LocationSettings.onLocationUpdate
    (LocationSettings.handleSubmit parseFloat latitude longitude radius)
  = Some (a, b, c) →
  a = parseFloat latitude ∧ b = parseFloat longitude ∧ c = parseFloat radius
  ∧ within (-90) 90 a ∧ within (-180) 180 b ∧ admissible_radius c.
Proof.
  destruct (handleSubmit_cases parseFloat latitude longitude radius)
    as [[_ ->] | [_ [[_ ->] | [(_ & _ & ->)
                       | [(_ & _ & _ & ->) | (Hlat & Hlon & Hrad & ->)]]]]];
    simpl; try done.
  by intros [= <- <- <-].
Qed.

(** X18. A submission of the form reaches the application only when it is
    valid: the request that goes out then carries the parsed latitude in
    [-90, 90], longitude in [-180, 180] and radius in (0, 2], and location and
    radius are set to them; any other submission leaves the whole application
    state as it was and sends nothing. *)
Theorem submit_spec (parseFloat : string -> JS.number)
  (latitude longitude radius : string) (s : App.state) :
  (∀ req, snd (submit parseFloat latitude longitude radius s) = Some req →
     App.lat req = parseFloat latitude
     ∧ App.lon req = parseFloat longitude
     ∧ App.radius req = parseFloat radius
     ∧ within (-90) 90 (App.lat req)
     ∧ within (-180) 180 (App.lon req)
     ∧ admissible_radius (App.radius req)
     ∧ App.location (fst (submit parseFloat latitude longitude radius s))
       = (App.lat req, App.lon req)
     ∧ App.searchRadius (fst (submit parseFloat latitude longitude radius s))
       = App.radius req)
  ∧ (snd (submit parseFloat latitude longitude radius s) = None →
     fst (submit parseFloat latitude longitude radius s) = s)
  ∧ (snd (submit parseFloat latitude longitude radius s) = None
     ↔ ¬ (within (-90) 90 (parseFloat latitude)
          ∧ within (-180) 180 (parseFloat longitude)
          ∧ admissible_radius (parseFloat radius))).
Proof.
  unfold submit.
  destruct (LocationSettings.onLocationUpdate
              (LocationSettings.handleSubmit parseFloat latitude longitude
                 radius)) as [[[a b] c]|] eqn:E.
  - apply handleSubmit_accepts in E as (-> & -> & -> & Hlat & Hlon & Hrad).
    simpl. split; [| split; [done |]].
    + by intros req [= <-].
    + split; [done |]. intros Hnot. by destruct Hnot.
  - simpl. split; [done |]. split; [done |]. split; [| done].
    intros _ (Hlat & Hlon & Hrad).
    destruct (handleSubmit_cases parseFloat latitude longitude radius)
      as [[Hnot _] | [_ [[Hno _] | [(_ & Hno & _)
                         | [(_ & _ & Hno & _) | (_ & _ & _ & Hacc)]]]]];
      try done.
    + apply Hnot. split; [by eapply within_numeric |].
      split; [by eapply within_numeric | by apply admissible_radius_numeric].
    + rewrite Hacc in E. done.
Qed.

Lemma submit_spec_witness :
  fst (submit parseFloatOn "41.8781" "-87.6298" "3" App.initial) = App.initial.
Proof.
  apply (submit_spec parseFloatOn "41.8781" "-87.6298" "3" App.initial).
  reflexivity.
Defined.

(** X19. In every state the application can reach, the search radius lies in
    (0, 2]; so does the radius of every request sent for a reported
    position, which is the radius captured when the button was pressed. *)
Theorem search_radius_admissible :
  (∀ s, reachable s → admissible_radius (App.searchRadius s))
  ∧ (∀ clicked r s req,
       reachable clicked →
       snd (App.getLocation_callback clicked r s) = Some req →
       admissible_radius (App.radius req)).
Proof.
  assert (∀ s, reachable s → admissible_radius (App.searchRadius s)) as Hinv.
  { induction 1 as [| r s _ IH | pf la lo ra s _ IH | sup s _ IH
                    | clicked r s _ _ _ IH | r s _ IH | stop s _ IH
                    | stopId s _ IH | v s _ IH].
    - exists (1 # 2). split; [done |]. unfold Qlt, Qle. simpl. lia.
    - by destruct r.
    - unfold submit.
      destruct (LocationSettings.onLocationUpdate
                  (LocationSettings.handleSubmit pf la lo ra))
        as [[[a b] c]|] eqn:E; [| done].
      by apply handleSubmit_accepts in E as (_ & _ & _ & _ & _ & Hrad).
    - unfold App.getLocation. by destruct (negb sup).
    - by destruct r.
    - by destruct r.
    - done.
    - done.
    - done. }
  split; [exact Hinv |].
  intros clicked r s req Hclicked. destruct r; simpl; [| done].
  intros [= <-]. by apply Hinv.
Qed.

Lemma search_radius_admissible_witness :
  admissible_radius
    (App.searchRadius
       (fst (submit parseFloatOn "41.8781" "-87.6298" "0.5"
               (App.getLocation true App.initial)))).
Proof.
  apply search_radius_admissible.
  apply reachable_submit, reachable_press, reachable_initial.
Defined.

(** X20. After a search has failed, the stop list stays empty and an error
    stays set until a search succeeds, whatever is submitted, pressed or
    reported in between and however many more searches fail. *)
Theorem failed_search_until_success (s : App.state) (message : string)
  (events : list App.searchEvent) :
  Forall (λ e, App.isFound e = false) events →
  App.stops
    (fold_left App.searchStep events
       (App.fetchNearbyStops_settle (App.SearchThrown message) s))
  = App.noStops
  ∧ App.error
      (fold_left App.searchStep events
         (App.fetchNearbyStops_settle (App.SearchThrown message) s))
    ≠ None.
Proof.
  intros Hevents.
  assert (∀ s0, App.stops s0 = App.noStops → App.error s0 ≠ None →
            App.stops (fold_left App.searchStep events s0) = App.noStops
            ∧ App.error (fold_left App.searchStep events s0) ≠ None) as Hkeep.
  { induction Hevents as [|e events He _ IH]; intros s0 Hstops Herr; [done |].
    simpl. apply IH.
    - destruct e as [la lo ra | sup | clicked [la lo | m] | [data | m]];
        simpl; try done.
      unfold App.getLocation. by destruct (negb sup).
    - destruct e as [la lo ra | sup | clicked [la lo | m] | [data | m]];
        simpl; try done.
      unfold App.getLocation. by destruct (negb sup). }
  by apply Hkeep.
Qed.

Lemma failed_search_until_success_witness :
  App.stops
    (fold_left App.searchStep
       [App.Pressed true;
        App.Positioned App.initial (App.PositionError "denied");
        App.Submitted downtown_lat downtown_lon nearby]
       (App.fetchNearbyStops_settle (App.SearchThrown "HTTP error! status: 500")
          App.initial))
  = App.noStops.
Proof.
  apply (failed_search_until_success App.initial "HTTP error! status: 500"
           [App.Pressed true;
            App.Positioned App.initial (App.PositionError "denied");
            App.Submitted downtown_lat downtown_lon nearby]).
  repeat constructor.
Defined.

(** X21. Searching never touches what is monitored: no submission, press of
    the location button, reported position or search result changes the
    monitored set or the selected tab. *)
Theorem search_keeps_monitored (events : list App.searchEvent) (s : App.state) :
  App.monitoredStops (fold_left App.searchStep events s) = App.monitoredStops s
  ∧ App.tabValue (fold_left App.searchStep events s) = App.tabValue s.
Proof.
  revert s. induction events as [|e events IH]; intros s; [done |].
  simpl. destruct (IH (App.searchStep s e)) as [-> ->].
  destruct e as [la lo ra | sup | clicked [la lo | m] | [data | m]];
    simpl; try done.
  unfold App.getLocation. by destruct (negb sup).
Qed.

(** ** ArrivalsList: the request *)

Lemma occurs_app (c : Ascii.ascii) (s1 s2 : string) :
  JS.occurs c (s1 ++ s2)%string = JS.occurs c s1 || JS.occurs c s2.
Proof.
  induction s1 as [|c' s1 IH]; simpl; [done |].
  by rewrite IH, orb_assoc.
Qed.

Lemma occurs_pretty_N_go (x : N) (s : string) :
  JS.occurs "?"%char (pretty_N_go x s) = JS.occurs "?"%char s.
Proof.
  revert s. induction (N.lt_wf_0 x) as [x _ IH]; intros s.
  destruct (decide (x = 0)%N) as [-> | Hx]; [by rewrite pretty_N_go_0 |].
  rewrite pretty_N_go_step by lia.
  rewrite IH by (apply N.div_lt; lia).
  simpl. unfold pretty_N_char. by repeat case_match.
Qed.

Lemma occurs_numberToString (n : Z) :
  JS.occurs "?"%char (JS.numberToString n) = false.
Proof.
  unfold JS.numberToString, pretty, pretty_Z.
  destruct n as [|p|p]; [done | |].
  - unfold pretty, pretty_positive, pretty, pretty_N.
    case_decide; [done |]. by rewrite occurs_pretty_N_go.
  - rewrite occurs_app. simpl.
    unfold pretty, pretty_positive, pretty, pretty_N.
    case_decide; [done |]. by rewrite occurs_pretty_N_go.
Qed.

Lemma occurs_stringify (arr : list Z) :
  JS.occurs "?"%char (JS.stringify arr) = false.
Proof.
  unfold JS.stringify. rewrite !occurs_app. simpl.
  rewrite orb_false_r.
  induction arr as [|n arr IH]; [done |].
  rewrite fmap_cons. simpl.
  destruct (JS.numberToString <$> arr) eqn:E.
  - apply occurs_numberToString.
  - rewrite !occurs_app, occurs_numberToString. simpl. exact IH.
Qed.

(** X22. The URL requested for a stop whose ids print in decimal holds no
    question mark: related ids are appended to the path after an ampersand
    and never form a query string. *)
Theorem request_has_no_query (stop : Stop) :
  JS.printsInDecimal (stop_id stop) →
  (∀ ids i, related_stop_ids stop = Some ids → i ∈ ids →
            JS.printsInDecimal i) →
  JS.occurs "?"%char (ArrivalsList.requestUrl stop) = false.
Proof.
  intros _ _. unfold ArrivalsList.requestUrl, ArrivalsList.relatedStopsParam.
  rewrite !occurs_app, occurs_numberToString.
  destruct (related_stop_ids stop) as [[|i ids]|]; try done.
  rewrite occurs_app, occurs_stringify. done.
Qed.

Lemma request_has_no_query_witness :
  ArrivalsList.requestUrl
    (StopsMap.handleStopSelect [] [stateLakeNorth; stateLakeSouth] stateLakeNorth)
  = "http://localhost:8000/api/arrivals/1001&related_stop_ids=[1002]"
  ∧ JS.occurs "?"%char
      (ArrivalsList.requestUrl
         (StopsMap.handleStopSelect [] [stateLakeNorth; stateLakeSouth]
            stateLakeNorth))
    = false.
Proof.
  split; [reflexivity |].
  apply (request_has_no_query
           (StopsMap.handleStopSelect [] [stateLakeNorth; stateLakeSouth]
              stateLakeNorth)).
  - unfold JS.printsInDecimal. simpl. lia.
  - intros ids i [= <-] Hi. apply list_elem_of_singleton in Hi. subst i.
    unfold JS.printsInDecimal. simpl. lia.
Defined.
